(** * vscode-q: the query-history tree and the status bar manager

    A shallow embedding of [src/client/items/history.ts] and
    [src/client/modules/q-status-bar-manager.ts].

    - JavaScript values are modelled dynamically ([value]): TypeScript's
      annotations are erased at run time, and [JSON.parse] returns whatever
      the file holds.
    - The file system is a finite map from paths to file contents; every
      call into [fs] and every [fire] of the change emitter is recorded in a
      log, so that "touches the disk" and "notifies" are statements about
      the log.
    - Thrown exceptions (and rejected promises) are the [Throw] outcome of a
      state-and-error monad whose state survives the throw. *)

From Stdlib Require Import String Ascii List Bool.
From stdpp Require Import base option gmap strings list.

Set Warnings "-register-all".
Set Default Proof Using "Type".

(** ** Exceptions *)

Inductive Error : Type :=
  | SyntaxError   (* JSON.parse on malformed text *)
  | TypeError     (* property access on undefined/null, call of a non-function *)
  | ENOENT.       (* fs: no such file *)

Inductive Res (A : Type) : Type :=
  | Ok (a : A)
  | Throw (e : Error).
Arguments Ok {A} a.
Arguments Throw {A} e.

#[global] Instance Res_ret : MRet Res := fun A a => Ok a.
#[global] Instance Res_bind : MBind Res := fun A B f m =>
  match m with
  | Ok a => f a
  | Throw e => Throw e
  end.

(** [Array.prototype.map] with a callback that may throw: elements are
    visited left to right and the first exception aborts the loop. *)
Fixpoint Array_map {A B : Type} (f : A -> Res B) (xs : list A) : Res (list B) :=
  match xs with
  | [] => Ok []
  | x :: rest =>
      y ← f x;
      ys ← Array_map f rest;
      Ok (y :: ys)
  end.

(** ** Strings *)

Definition LF : string := String "010"%char EmptyString.

Fixpoint string_drop (n : nat) (s : string) : string :=
  match n, s with
  | O, _ => s
  | S n', String _ rest => string_drop n' rest
  | S _, EmptyString => EmptyString
  end.

(** [String.prototype.replace(searchValue, replaceValue)] with a string
    pattern: only the first occurrence is substituted.  [replaceValue] is
    taken literally, which is what JavaScript does when it holds no [$]
    (every call site passes ['-']).  Strings are byte strings here; a comma
    is one byte in UTF-8 and is never part of a longer sequence. *)
Fixpoint String_replace (searchValue replaceValue s : string) : string :=
  if String.prefix searchValue s
  then replaceValue +:+ string_drop (String.length searchValue) s
  else match s with
       | EmptyString => EmptyString
       | String c rest => String c (String_replace searchValue replaceValue rest)
       end.

(** The normalisation the data model describes: every comma becomes a
    dash.  This follows the specification's wording, for comparison with
    what [String_replace] does. *)
Fixpoint commas_to_dashes (s : string) : string :=
  match s with
  | EmptyString => EmptyString
  | String c rest =>
      String (if Ascii.eqb c ","%char then "-"%char else c) (commas_to_dashes rest)
  end.

Fixpoint count_char (c : ascii) (s : string) : nat :=
  match s with
  | EmptyString => 0
  | String a rest => (if Ascii.eqb a c then 1 else 0) + count_char c rest
  end.

(** ** JavaScript values *)

Inductive value (number Date : Type) : Type :=
  | VUndefined
  | VNull
  | VBool (b : bool)
  | VNum (n : number)
  | VStr (s : string)
  | VDate (d : Date)
  | VArr (elements : list (value number Date))
  | VObj (properties : gmap string (value number Date)).
Arguments VUndefined {number Date}.
Arguments VNull {number Date}.
Arguments VBool {number Date} b.
Arguments VNum {number Date} n.
Arguments VStr {number Date} s.
Arguments VDate {number Date} d.
Arguments VArr {number Date} elements.
Arguments VObj {number Date} properties.

(** What the code takes from its platform: the number and date types, the
    conversions the engine and dayjs perform, [path.dirname] and
    [JSON.parse].  The results below hold for every such platform. *)
Class Host : Type := {
  number : Type;
  Date : Type;
  zero : number;
  (** [String(n)] for a number and the truthiness of a number *)
  Number_toString : number -> string;
  Number_truthy : number -> bool;
  (** [dayjs(d).format(template)] for a [Date] object *)
  Date_format : Date -> string -> string;
  (** [dayjs(v).format(template)] for any other value; may throw *)
  dayjs_other : value number Date -> string -> Res string;
  (** string conversion of an object (array, plain object, date); may throw *)
  object_ToString : value number Date -> Res string;
  (** the paths computed when the module is loaded, and [path.dirname] *)
  oldHistoryPath : string;
  historyPath : string;
  path_dirname : string -> string;
  (** [JSON.parse]: [None] stands for the thrown [SyntaxError] *)
  JSON_parse : string -> option (value number Date);
  JSON_parse_empty_array : JSON_parse "[]" = Some (VArr [])
}.

(** ** History records *)

(** The [History] type of the source, for callers that TypeScript has
    checked, and the object such a caller passes at run time. *)
Module History.
Record t {host : Host} : Type := mk {
  uniqLabel : string;
  time : Date;
  duration : number;
  query : string;
  errorMsg : string
}.

Definition to_value {host : Host} (h : t) : value number Date :=
  VObj (<["uniqLabel" := VStr (uniqLabel h)]>
       (<["time" := VDate (time h)]>
       (<["duration" := VNum (duration h)]>
       (<["query" := VStr (query h)]>
       (<["errorMsg" := VStr (errorMsg h)]> ∅))))).
End History.

Section Model.
Context `{host : Host}.

Local Abbreviation val := (value number Date).

(** [v.k] for one of the field names of a history record.  None of these
    names is inherited from a built-in prototype, so on anything but a
    plain object the result is [undefined]; on [undefined] and [null] the
    access itself throws. *)
Definition Get (v : val) (k : string) : Res val :=
  match v with
  | VUndefined | VNull => Throw TypeError
  | VObj properties => Ok (default VUndefined (properties !! k))
  | _ => Ok VUndefined
  end.

(** [v.replace(',', '-')]: only a string has a callable [replace]. *)
Definition call_replace (v : val) (searchValue replaceValue : string) : Res string :=
  match v with
  | VStr s => Ok (String_replace searchValue replaceValue s)
  | VUndefined | VNull => Throw TypeError
  | _ => Throw TypeError
  end.

(** The conversion behind [`${v}`]. *)
Definition ToString (v : val) : Res string :=
  match v with
  | VUndefined => Ok "undefined"
  | VNull => Ok "null"
  | VBool true => Ok "true"
  | VBool false => Ok "false"
  | VNum n => Ok (Number_toString n)
  | VStr s => Ok s
  | VDate _ | VArr _ | VObj _ => object_ToString v
  end.

(** The conversion behind [if (v)]. *)
Definition ToBoolean (v : val) : bool :=
  match v with
  | VUndefined | VNull => false
  | VBool b => b
  | VNum n => Number_truthy n
  | VStr s => negb (String.eqb s EmptyString)
  | VDate _ | VArr _ | VObj _ => true
  end.

Definition dayjs_format (v : val) (template : string) : Res string :=
  match v with
  | VDate d => Ok (Date_format d template)
  | _ => dayjs_other v template
  end.

(** ** Tree items *)

(** The only object ever passed as a parent is the singleton
    [HistoryTreeItem.currentHistoryTree]; [null] is [None]. *)
Inductive TreeRef : Type := currentHistoryTree_ref.

(** A [MarkdownString] as the sequence of its append calls; what the
    editor makes of the appended text is its own business. *)
Inductive MarkdownChunk : Type :=
  | Markdown (text : string)
  | Codeblock (code : val) (language : string).

Inductive HistoryTreeItem : Type := mkHistoryTreeItem {
  label : string;
  tooltip : list MarkdownChunk;
  uniqLabel : val;
  query : val;
  time : val;
  duration : val;
  _parent : option TreeRef;
  _children : list HistoryTreeItem;
  errorMsg : val;
  contextValue : string
}.

(** A [TreeItem] handed to [getChildren]: one of ours, or some other item
    of the host editor. *)
Inductive TreeItem : Type :=
  | THistory (e : HistoryTreeItem)
  | TOther (other_label : string).

(** The private constructor (history.ts, lines 47-68). *)
Definition new_HistoryTreeItem (history : val) (parent : option TreeRef)
  : Res HistoryTreeItem :=
  h_uniqLabel ← Get history "uniqLabel";
  shown ← call_replace h_uniqLabel "," "-";
  h_time ← Get history "time";
  hms ← dayjs_format h_time "HH:mm:ss";
  let super_label := shown +:+ " | " +:+ hms in
  h_query ← Get history "query";
  h_duration ← Get history "duration";
  h_errorMsg ← Get history "errorMsg";
  server ← call_replace h_uniqLabel "," "-";
  stamp ← dayjs_format h_time "YYYY.MM.DD HH:mm:ss.SSS";
  dur ← ToString h_duration;
  let mdString :=
    [ Markdown ("- server: " +:+ server +:+ LF);
      Markdown ("- time: " +:+ stamp +:+ LF);
      Markdown ("- duration: " +:+ dur +:+ LF) ] in
  let mdString :=
    if ToBoolean h_errorMsg
    then mdString ++ [Markdown "- error:"; Codeblock h_errorMsg "q"]
    else mdString ++ [Markdown "- query:"; Codeblock h_query "q"] in
  Ok {| label := super_label;
        tooltip := mdString;
        uniqLabel := h_uniqLabel;
        query := h_query;
        time := h_time;
        duration := h_duration;
        _parent := parent;
        _children := [];
        errorMsg := h_errorMsg;
        contextValue := "history" |}.

(** What the constructor builds from a well-typed record. *)
Definition item_of (h : History.t) (parent : option TreeRef) : HistoryTreeItem :=
  {| label := String_replace "," "-" (History.uniqLabel h) +:+ " | "
              +:+ Date_format (History.time h) "HH:mm:ss";
     tooltip :=
       [ Markdown ("- server: " +:+ String_replace "," "-" (History.uniqLabel h) +:+ LF);
         Markdown ("- time: " +:+ Date_format (History.time h) "YYYY.MM.DD HH:mm:ss.SSS" +:+ LF);
         Markdown ("- duration: " +:+ Number_toString (History.duration h) +:+ LF) ]
       ++ (if negb (String.eqb (History.errorMsg h) EmptyString)
           then [Markdown "- error:"; Codeblock (VStr (History.errorMsg h)) "q"]
           else [Markdown "- query:"; Codeblock (VStr (History.query h)) "q"]);
     uniqLabel := VStr (History.uniqLabel h);
     query := VStr (History.query h);
     time := VDate (History.time h);
     duration := VNum (History.duration h);
     _parent := parent;
     _children := [];
     errorMsg := VStr (History.errorMsg h);
     contextValue := "history" |}.

(** ** The world outside: disk and observers *)

Inductive Event : Type :=
  | Ev_fileExists (p : string)
  | Ev_mkdir (p : string)
  | Ev_copyFile (src dest : string)
  | Ev_unlink (p : string)
  | Ev_writeFile (p data : string)
  | Ev_readFile (p : string)
  | Ev_fire.                       (* _onDidChangeTreeData.fire(undefined) *)

Definition is_fs_event (e : Event) : bool :=
  match e with
  | Ev_fire => false
  | _ => true
  end.

Definition is_disk_mutation (e : Event) : bool :=
  match e with
  | Ev_mkdir _ | Ev_copyFile _ _ | Ev_unlink _ | Ev_writeFile _ _ => true
  | Ev_fileExists _ | Ev_readFile _ | Ev_fire => false
  end.

(** Regular files by path, and the calls made so far, oldest first.
    Directories are not tracked: [mkdir] with [recursive: true] leaves every
    file as it is and is only logged.  An [fs] call fails here exactly when
    it is given a file that does not exist. *)
Record World : Type := mkWorld {
  disk : gmap string string;
  log : list Event
}.

Definition emit (e : Event) (w : World) : World :=
  {| disk := disk w; log := log w ++ [e] |}.

Definition set_disk (d : gmap string string) (w : World) : World :=
  {| disk := d; log := log w |}.

(** Code running against an object of type [S] (the receiver [this], or a
    static field) and the world.  The state is kept when an exception is
    thrown. *)
Definition Eff (S A : Type) : Type := S -> World -> Res A * S * World.

#[global] Instance Eff_ret {S} : MRet (Eff S) := fun A a s w => (Ok a, s, w).
#[global] Instance Eff_bind {S} : MBind (Eff S) := fun A B f m s w =>
  match m s w with
  | (Ok a, s', w') => f a s' w'
  | (Throw e, s', w') => (Throw e, s', w')
  end.

Definition lift {S A} (r : Res A) : Eff S A := fun s w => (r, s, w).
Definition get_obj {S} : Eff S S := fun s w => (Ok s, s, w).
Definition put_obj {S} (s : S) : Eff S unit := fun _ w => (Ok tt, s, w).

(** A call whose promise is dropped: the caller sees neither the result
    nor a rejection. *)
Definition not_awaited {S A} (m : Eff S A) : Eff S unit := fun s w =>
  match m s w with
  | (_, s', w') => (Ok tt, s', w')
  end.

(** Modelled from the spec: [fileExists] of [util/fs-utils], which is not
    among the sources; it tells whether the location has a file. *)
Definition fileExists {S} (p : string) : Eff S bool := fun s w =>
  (Ok (bool_decide (is_Some (disk w !! p))), s, emit (Ev_fileExists p) w).

Definition fs_mkdir {S} (p : string) : Eff S unit := fun s w =>
  (Ok tt, s, emit (Ev_mkdir p) w).

Definition fs_copyFile {S} (src dest : string) : Eff S unit := fun s w =>
  match disk w !! src with
  | Some data => (Ok tt, s, emit (Ev_copyFile src dest) (set_disk (<[dest := data]> (disk w)) w))
  | None => (Throw ENOENT, s, emit (Ev_copyFile src dest) w)
  end.

Definition fs_unlink {S} (p : string) : Eff S unit := fun s w =>
  match disk w !! p with
  | Some _ => (Ok tt, s, emit (Ev_unlink p) (set_disk (delete p (disk w)) w))
  | None => (Throw ENOENT, s, emit (Ev_unlink p) w)
  end.

Definition fs_writeFile {S} (p data : string) : Eff S unit := fun s w =>
  (Ok tt, s, emit (Ev_writeFile p data) (set_disk (<[p := data]> (disk w)) w)).

Definition fs_readFile {S} (p : string) : Eff S string := fun s w =>
  match disk w !! p with
  | Some data => (Ok data, s, emit (Ev_readFile p) w)
  | None => (Throw ENOENT, s, emit (Ev_readFile p) w)
  end.

Definition fire {S} : Eff S unit := fun s w => (Ok tt, s, emit Ev_fire w).

Definition call_JSON_parse (text : string) : Res val :=
  match JSON_parse text with
  | Some v => Ok v
  | None => Throw SyntaxError
  end.

(** [histories.map(f)]: only an array has a callable [map]. *)
Definition call_map {B} (histories : val) (f : val -> Res B) : Res (list B) :=
  match histories with
  | VArr elements => Array_map f elements
  | _ => Throw TypeError
  end.

(** ** HistoryTreeItem: methods *)

Definition set_children (items : list HistoryTreeItem) (this : HistoryTreeItem)
  : HistoryTreeItem :=
  {| label := label this;
     tooltip := tooltip this;
     uniqLabel := uniqLabel this;
     query := query this;
     time := time this;
     duration := duration this;
     _parent := _parent this;
     _children := items;
     errorMsg := errorMsg this;
     contextValue := contextValue this |}.

(** Lines 80-88 of [refresh], the step the specification calls
    [ensureInitialized]. *)
Definition ensureInitialized {S} : Eff S unit :=
  present ← fileExists historyPath;
  if negb present then
    fs_mkdir (path_dirname historyPath);;
    legacy ← fileExists oldHistoryPath;
    if legacy : bool then
      fs_copyFile oldHistoryPath historyPath;;
      fs_unlink oldHistoryPath
    else
      fs_writeFile historyPath "[]"
  else mret tt.

(** Lines 89-91 of [refresh]: read, parse, build the children, notify. *)
Definition read_history : Eff HistoryTreeItem unit :=
  text ← fs_readFile historyPath;
  histories ← lift (call_JSON_parse text);
  items ← lift (call_map histories
                  (fun h => new_HistoryTreeItem h (Some currentHistoryTree_ref)));
  this ← get_obj;
  put_obj (set_children items this);;
  fire.

(** [refresh] (lines 70-92), run to completion: calls do not overlap. *)
Definition refresh : Eff HistoryTreeItem unit :=
  this ← get_obj;
  if bool_decide (is_Some (_parent this)) then mret tt
  else if bool_decide (0 < length (_children this)) then fire
  else
    ensureInitialized;;
    read_history.

Definition getParent (this : HistoryTreeItem) : option TreeRef := _parent this.

Definition getChildren (this : HistoryTreeItem) (e : option TreeItem)
  : list HistoryTreeItem :=
  match e with
  | Some (THistory e) => _children e
  | Some (TOther _) => []
  | None => _children this
  end.

(** An instance method run on the object in the static field
    [currentHistoryTree]; reaching through the field when it is still
    undefined throws. *)
Definition on_currentHistoryTree {A} (m : Eff HistoryTreeItem A)
  : Eff (option HistoryTreeItem) A := fun current w =>
  match current with
  | None => (Throw TypeError, None, w)
  | Some tree =>
      match m tree w with
      | (r, tree', w') => (r, Some tree', w')
      end
  end.

Definition unshift (item : HistoryTreeItem) : Eff HistoryTreeItem unit := fun this w =>
  (Ok tt, set_children (item :: _children this) this, w).

(** [appendHistory] (lines 112-115).  [currentHistoryTree._children] is
    evaluated before the argument of [unshift]. *)
Definition appendHistory (history : val) : Eff (option HistoryTreeItem) unit :=
  on_currentHistoryTree
    (item ← lift (new_HistoryTreeItem history (Some currentHistoryTree_ref));
     unshift item;;
     not_awaited refresh).

(** [createHistoryTree] (lines 41-45); [now] is what [new Date()] returns. *)
Definition createHistoryTree (now : Date) : Eff (option HistoryTreeItem) HistoryTreeItem :=
  current ← get_obj;
  match current with
  | Some tree => mret tree
  | None =>
      tree ← lift (new_HistoryTreeItem
                     (History.to_value
                        (History.mk _ "root" now zero EmptyString EmptyString))
                     None);
      put_obj (Some tree);;
      mret tree
  end.

(** The world after the one-time migration of a legacy file holding [C],
    and after the creation of an empty history. *)
Definition migrated (C : string) (w : World) : World :=
  {| disk := delete oldHistoryPath (<[historyPath := C]> (disk w));
     log := log w ++ [ Ev_fileExists historyPath;
                       Ev_mkdir (path_dirname historyPath);
                       Ev_fileExists oldHistoryPath;
                       Ev_copyFile oldHistoryPath historyPath;
                       Ev_unlink oldHistoryPath ] |}.

Definition initialized (w : World) : World :=
  {| disk := <[historyPath := "[]"]> (disk w);
     log := log w ++ [ Ev_fileExists historyPath;
                       Ev_mkdir (path_dirname historyPath);
                       Ev_fileExists oldHistoryPath;
                       Ev_writeFile historyPath "[]" ] |}.

(** ** Runs of the program *)

(** The static field [currentHistoryTree] and the world. *)
Definition Prog : Type := option HistoryTreeItem * World.

Definition after {S A} (x : Res A * S * World) : S * World := (x.1.2, x.2).

(** What can happen to the history tree: the exported operations are
    called, in any order and with any argument, and other processes write
    the disk. *)
Inductive step : Prog -> Prog -> Prop :=
  | step_create now current w :
      step (current, w) (after (createHistoryTree now current w))
  | step_refresh current w :
      step (current, w) (after (on_currentHistoryTree refresh current w))
  | step_append history current w :
      step (current, w) (after (appendHistory history current w))
  | step_disk d current w :
      step (current, w) (current, set_disk d w).

Inductive reachable : Prog -> Prop :=
  | reachable_start w : reachable (None, w)
  | reachable_step p q : reachable p -> step p q -> reachable q.

(** The shape every tree has: a root without parent whose children are
    leaves below the root. *)
Definition is_leaf (e : HistoryTreeItem) : Prop :=
  _parent e = Some currentHistoryTree_ref /\ _children e = [].

Definition tree_ok (tree : HistoryTreeItem) : Prop :=
  _parent tree = None /\ Forall is_leaf (_children tree).

(** The specification's [load]: refresh, then read the root's children. *)
Definition load : Eff (option HistoryTreeItem) (list HistoryTreeItem) :=
  on_currentHistoryTree
    (refresh;;
     this ← get_obj;
     mret (getChildren this None)).

(** [appendHistory] called once per record, in list order. *)
Fixpoint appendAll (records : list History.t) : Eff (option HistoryTreeItem) unit :=
  match records with
  | [] => mret tt
  | r :: rest => appendHistory (History.to_value r);; appendAll rest
  end.

(** The record an item was built from, when its fields have the types of
    [History]. *)
Definition History_of_item (e : HistoryTreeItem) : option History.t :=
  match uniqLabel e, time e, duration e, query e, errorMsg e with
  | VStr l, VDate t, VNum d, VStr q, VStr m => Some (History.mk _ l t d q m)
  | _, _, _, _, _ => None
  end.

(** A disk that holds no history yet: no file at either location, or a
    file whose text is the empty array. *)
Definition history_file_empty (d : gmap string string) : Prop :=
  match d !! historyPath with
  | Some text => JSON_parse text = Some (VArr [])
  | None =>
      match d !! oldHistoryPath with
      | Some text => JSON_parse text = Some (VArr [])
      | None => True
      end
  end.

(** The persisted format of section 6 of the specification: an array of
    objects with a string [uniqLabel], a serialized [time], a numeric
    [duration] and strings [query] and [errorMsg]. *)
Definition is_string (v : option val) : bool :=
  match v with Some (VStr _) => true | _ => false end.

Definition is_number (v : option val) : bool :=
  match v with Some (VNum _) => true | _ => false end.

Definition is_history_record (v : val) : bool :=
  match v with
  | VObj properties =>
      is_string (properties !! "uniqLabel")
      && (is_string (properties !! "time") || is_number (properties !! "time"))
      && is_number (properties !! "duration")
      && is_string (properties !! "query")
      && is_string (properties !! "errorMsg")
  | _ => false
  end.

Definition is_history_list (v : val) : bool :=
  match v with
  | VArr elements => forallb is_history_record elements
  | _ => false
  end.

Definition valid_history_text (text : string) : bool :=
  match JSON_parse text with
  | Some v => is_history_list v
  | None => false
  end.

End Model.

(** Replacing the first comma only, written out character by character. *)
Fixpoint first_comma_to_dash (s : string) : string :=
  match s with
  | EmptyString => EmptyString
  | String c rest =>
      if Ascii.eqb c ","%char then String "-"%char rest
      else String c (first_comma_to_dash rest)
  end.

(** ** QStatusBarManager *)

Module StatusBar.

(** A status bar item of the editor: its properties and whether it is
    shown.  [createStatusBarItem] returns a hidden, blank item. *)
Record StatusBarItem : Type := mkStatusBarItem {
  priority : nat;
  text : string;
  color : option string;
  tooltip : option string;
  visible : bool
}.

Definition createStatusBarItem (priority : nat) : StatusBarItem :=
  {| priority := priority; text := EmptyString; color := None;
     tooltip := None; visible := false |}.

Definition show (i : StatusBarItem) : StatusBarItem :=
  {| priority := priority i; text := text i; color := color i;
     tooltip := tooltip i; visible := true |}.

Definition hide (i : StatusBarItem) : StatusBarItem :=
  {| priority := priority i; text := text i; color := color i;
     tooltip := tooltip i; visible := false |}.

Definition set_text (s : string) (i : StatusBarItem) : StatusBarItem :=
  {| priority := priority i; text := s; color := color i;
     tooltip := tooltip i; visible := visible i |}.

Definition set_color (c : string) (i : StatusBarItem) : StatusBarItem :=
  {| priority := priority i; text := text i; color := Some c;
     tooltip := tooltip i; visible := visible i |}.

Definition set_tooltip (t : string) (i : StatusBarItem) : StatusBarItem :=
  {| priority := priority i; text := text i; color := color i;
     tooltip := Some t; visible := visible i |}.

Record QStatusBarManager : Type := mkQStatusBarManager {
  connStatusBar : StatusBarItem;
  queryStatusBar : StatusBarItem;
  unlimitedQueryStatusBar : StatusBarItem
}.

(** The static fields of [QConnManager] that the manager reads. *)
Record QConnManager : Type := mkQConnManager {
  queryMode : string;
  consoleMode : bool
}.

(** The constructor (lines 24-41); the pushes onto
    [context.subscriptions] only register the items for disposal. *)
Definition new_QStatusBarManager : QStatusBarManager :=
  {| connStatusBar := show (createStatusBarItem 99);
     queryStatusBar :=
       set_tooltip "Querying"
         (set_color "#F44336" (set_text "$(loading)" (createStatusBarItem 98)));
     unlimitedQueryStatusBar :=
       set_tooltip "Unlimited Query"
         (set_color "#FFEE58" (set_text "$(flame)" (createStatusBarItem 97))) |}.

(** The static methods act on the static field [current]. *)
Definition Static (A : Type) : Type :=
  option QStatusBarManager -> Res A * option QStatusBarManager.

Definition create : Static QStatusBarManager := fun current =>
  match current with
  | Some m => (Ok m, current)
  | None => (Ok new_QStatusBarManager, Some new_QStatusBarManager)
  end.

(** [s[0] + ...]: the first character of [s], or [undefined], which [+]
    turns into the text "undefined" (a mode name is plain ASCII, where a
    byte is a character). *)
Definition index0_text (s : string) : string :=
  match s with
  | EmptyString => "undefined"
  | String c _ => String c EmptyString
  end.

Definition set_connStatusBar (i : StatusBarItem) (m : QStatusBarManager)
  : QStatusBarManager :=
  {| connStatusBar := i; queryStatusBar := queryStatusBar m;
     unlimitedQueryStatusBar := unlimitedQueryStatusBar m |}.

Definition set_queryStatusBar (i : StatusBarItem) (m : QStatusBarManager)
  : QStatusBarManager :=
  {| connStatusBar := connStatusBar m; queryStatusBar := i;
     unlimitedQueryStatusBar := unlimitedQueryStatusBar m |}.

Definition set_unlimitedQueryStatusBar (i : StatusBarItem) (m : QStatusBarManager)
  : QStatusBarManager :=
  {| connStatusBar := connStatusBar m; queryStatusBar := queryStatusBar m;
     unlimitedQueryStatusBar := i |}.

(** [this.current!]: the assertion is erased, so an undefined [current]
    throws at the property access. *)
Definition with_current (f : QStatusBarManager -> QStatusBarManager) : Static unit :=
  fun current =>
    match current with
    | Some m => (Ok tt, Some (f m))
    | None => (Throw TypeError, None)
    end.

Definition updateConnStatus (conn : QConnManager) (label : option string)
  : Static unit :=
  let text :=
    index0_text (queryMode conn) +:+ ":"
    +:+ String_replace "," "-" (default "No Connection" label) in
  if consoleMode conn then
    with_current (fun m =>
      set_connStatusBar (set_color "#FF79C6" (set_text text (connStatusBar m))) m)
  else
    with_current (fun m =>
      set_connStatusBar (set_color "#8BE9FD" (set_text text (connStatusBar m))) m).

Definition updateConnStatusColor (conn : QConnManager) : Static unit :=
  if consoleMode conn then
    with_current (fun m => set_connStatusBar (set_color "#FF79C6" (connStatusBar m)) m)
  else
    with_current (fun m => set_connStatusBar (set_color "#8BE9FD" (connStatusBar m)) m).

Definition updateQueryStatus (show_it : bool) : Static unit :=
  if show_it then
    with_current (fun m => set_queryStatusBar (show (queryStatusBar m)) m)
  else
    with_current (fun m => set_queryStatusBar (hide (queryStatusBar m)) m).

Definition updateUnlimitedQueryStatus (isLimited : bool) : Static unit :=
  if isLimited then
    with_current (fun m =>
      set_unlimitedQueryStatusBar (hide (unlimitedQueryStatusBar m)) m)
  else
    with_current (fun m =>
      set_unlimitedQueryStatusBar (show (unlimitedQueryStatusBar m)) m).

End StatusBar.

(** ** A platform to run the model on

    Numbers are kept as the decimal literal they were written with and
    dates as their ISO text in UTC, from which [dayjs] formatting cuts the
    fields of the two templates in use.  [JSON_parse] is a
    recursive-descent parser for the JSON grammar; of the string escapes it
    leaves out the surrogate halves of [\u], which it rejects. *)
Module Sample.

Abbreviation val := (value string string).

Definition is_ws (c : ascii) : bool :=
  Ascii.eqb c " "%char || Ascii.eqb c "009"%char
  || Ascii.eqb c "010"%char || Ascii.eqb c "013"%char.

Fixpoint skip_ws (s : list ascii) : list ascii :=
  match s with
  | c :: rest => if is_ws c then skip_ws rest else s
  | [] => []
  end.

Definition is_digit (c : ascii) : bool :=
  (48 <=? nat_of_ascii c)%nat && (nat_of_ascii c <=? 57)%nat.

Fixpoint span_digits (s : list ascii) : list ascii * list ascii :=
  match s with
  | c :: rest =>
      if is_digit c then
        let '(ds, r) := span_digits rest in (c :: ds, r)
      else ([], s)
  | [] => ([], [])
  end.

(** int: a single [0], or a non-zero digit followed by digits *)
Definition parse_int (s : list ascii) : option (list ascii * list ascii) :=
  match span_digits s with
  | ([], _) => None
  | ("0"%char :: _ :: _, _) => None
  | (ds, r) => Some (ds, r)
  end.

Definition parse_frac (s : list ascii) : option (list ascii * list ascii) :=
  match s with
  | "."%char :: r =>
      match span_digits r with
      | ([], _) => None
      | (ds, r') => Some ("."%char :: ds, r')
      end
  | _ => Some ([], s)
  end.

Definition parse_exp (s : list ascii) : option (list ascii * list ascii) :=
  match s with
  | e :: r =>
      if Ascii.eqb e "e"%char || Ascii.eqb e "E"%char then
        let '(sign, r1) :=
          match r with
          | c :: r1 =>
              if Ascii.eqb c "+"%char || Ascii.eqb c "-"%char then ([c], r1)
              else ([], r)
          | [] => ([], r)
          end in
        match span_digits r1 with
        | ([], _) => None
        | (ds, r2) => Some (e :: sign ++ ds, r2)
        end
      else Some ([], s)
  | [] => Some ([], s)
  end.

Definition parse_number (s : list ascii) : option (string * list ascii) :=
  let '(sign, r0) :=
    match s with
    | "-"%char :: r => (["-"%char], r)
    | _ => ([], s)
    end in
  '(i, r1) ← parse_int r0;
  '(f, r2) ← parse_frac r1;
  '(e, r3) ← parse_exp r2;
  Some (string_of_list_ascii (sign ++ i ++ f ++ e), r3).

Definition hex_digit (c : ascii) : option N :=
  let n := N_of_ascii c in
  if (48 <=? n)%N && (n <=? 57)%N then Some (n - 48)%N
  else if (65 <=? n)%N && (n <=? 70)%N then Some (n - 55)%N
  else if (97 <=? n)%N && (n <=? 102)%N then Some (n - 87)%N
  else None.

(** UTF-8 for a code point of the basic plane outside the surrogates *)
Definition utf8 (n : N) : option (list ascii) :=
  if (n <? 128)%N then Some [ascii_of_N n]
  else if (n <? 2048)%N then
    Some [ascii_of_N (192 + n / 64); ascii_of_N (128 + n mod 64)]
  else if (55296 <=? n)%N && (n <=? 57343)%N then None
  else
    Some [ascii_of_N (224 + n / 4096);
          ascii_of_N (128 + (n / 64) mod 64);
          ascii_of_N (128 + n mod 64)].

(** The characters after an opening quote, up to the closing one. *)
Fixpoint parse_chars (s : list ascii) : option (list ascii * list ascii) :=
  match s with
  | [] => None
  | "034"%char :: rest => Some ([], rest)
  | "092"%char :: esc =>
      match esc with
      | "u"%char :: a :: more =>
          match more with
          | b :: c :: d :: rest =>
              ha ← hex_digit a; hb ← hex_digit b;
              hc ← hex_digit c; hd ← hex_digit d;
              bytes ← utf8 (((ha * 16 + hb) * 16 + hc) * 16 + hd)%N;
              '(cs, r) ← parse_chars rest;
              Some (bytes ++ cs, r)
          | _ => None
          end
      | e :: rest =>
          ch ← (if Ascii.eqb e "034"%char then Some "034"%char
                else if Ascii.eqb e "092"%char then Some "092"%char
                else if Ascii.eqb e "/"%char then Some "/"%char
                else if Ascii.eqb e "b"%char then Some "008"%char
                else if Ascii.eqb e "f"%char then Some "012"%char
                else if Ascii.eqb e "n"%char then Some "010"%char
                else if Ascii.eqb e "r"%char then Some "013"%char
                else if Ascii.eqb e "t"%char then Some "009"%char
                else None);
          '(cs, r) ← parse_chars rest;
          Some (ch :: cs, r)
      | [] => None
      end
  | c :: rest =>
      if (nat_of_ascii c <? 32)%nat then None
      else
        '(cs, r) ← parse_chars rest;
        Some (c :: cs, r)
  end.

Definition parse_string (s : list ascii) : option (string * list ascii) :=
  '(cs, r) ← parse_chars s;
  Some (string_of_list_ascii cs, r).

Definition expect (word : list ascii) (v : val) (s : list ascii)
  : option (val * list ascii) :=
  if bool_decide (take (length word) s = word)
  then Some (v, drop (length word) s) else None.

(** [parse_value] reads one value, [parse_elements] the elements of an
    array after the first, up to the bracket, and [parse_members]
    likewise the members of an object; a later member with the same key
    wins.  The fuel bounds the nesting and the number of items. *)
Fixpoint parse_value (fuel : nat) (s : list ascii) : option (val * list ascii) :=
  match fuel with
  | O => None
  | S fuel =>
      match skip_ws s with
      | [] => None
      | c :: r =>
          if Ascii.eqb c "n"%char then expect (list_ascii_of_string "null") VNull (c :: r)
          else if Ascii.eqb c "t"%char then expect (list_ascii_of_string "true") (VBool true) (c :: r)
          else if Ascii.eqb c "f"%char then expect (list_ascii_of_string "false") (VBool false) (c :: r)
          else if Ascii.eqb c "034"%char then
            '(str, r') ← parse_string r;
            Some (VStr str, r')
          else if Ascii.eqb c "["%char then
            match skip_ws r with
            | "]"%char :: r' => Some (VArr [], r')
            | _ =>
                '(v, r1) ← parse_value fuel r;
                '(vs, r2) ← parse_elements fuel r1;
                Some (VArr (v :: vs), r2)
            end
          else if Ascii.eqb c "{"%char then
            match skip_ws r with
            | "}"%char :: r' => Some (VObj ∅, r')
            | "034"%char :: r0 =>
                '(k, r1) ← parse_string r0;
                match skip_ws r1 with
                | ":"%char :: r2 =>
                    '(v, r3) ← parse_value fuel r2;
                    '(m, r4) ← parse_members fuel r3;
                    Some (VObj (m ∪ {[k := v]}), r4)
                | _ => None
                end
            | _ => None
            end
          else
            '(lit, r') ← parse_number (c :: r);
            Some (VNum lit, r')
      end
  end
with parse_elements (fuel : nat) (s : list ascii) : option (list val * list ascii) :=
  match fuel with
  | O => None
  | S fuel =>
      match skip_ws s with
      | "]"%char :: r => Some ([], r)
      | ","%char :: r =>
          '(v, r1) ← parse_value fuel r;
          '(vs, r2) ← parse_elements fuel r1;
          Some (v :: vs, r2)
      | _ => None
      end
  end
with parse_members (fuel : nat) (s : list ascii)
  : option (gmap string val * list ascii) :=
  match fuel with
  | O => None
  | S fuel =>
      match skip_ws s with
      | "}"%char :: r => Some (∅, r)
      | ","%char :: r =>
          match skip_ws r with
          | "034"%char :: r0 =>
              '(k, r1) ← parse_string r0;
              match skip_ws r1 with
              | ":"%char :: r2 =>
                  '(v, r3) ← parse_value fuel r2;
                  '(m, r4) ← parse_members fuel r3;
                  Some (m ∪ {[k := v]}, r4)
              | _ => None
              end
          | _ => None
          end
      | _ => None
      end
  end.

Definition parse (text : string) : option val :=
  let s := list_ascii_of_string text in
  '(v, r) ← parse_value (S (length s)) s;
  match skip_ws r with
  | [] => Some v
  | _ => None
  end.

Fixpoint dirname_aux (s : list ascii) : option (list ascii) :=
  match s with
  | [] => None
  | c :: rest =>
      match dirname_aux rest with
      | Some d => Some (c :: d)
      | None => if Ascii.eqb c "/"%char then Some [] else None
      end
  end.

Definition dirname (p : string) : string :=
  match dirname_aux (list_ascii_of_string p) with
  | Some [] => "/"
  | Some d => string_of_list_ascii d
  | None => "."
  end.

(** whether the digits before an exponent are all zero *)
Fixpoint mantissa_zero (s : list ascii) : bool :=
  match s with
  | [] => true
  | c :: rest =>
      if Ascii.eqb c "e"%char || Ascii.eqb c "E"%char then true
      else if is_digit c && negb (Ascii.eqb c "0"%char) then false
      else mantissa_zero rest
  end.

Definition is_zero_literal (lit : string) : bool :=
  mantissa_zero (list_ascii_of_string lit).

(** [format] on a text of the shape 2020-05-01T10:00:02.000Z *)
Definition format_iso (iso template : string) : string :=
  if negb (String.length iso =? 24)%nat then "Invalid Date"
  else if String.eqb template "HH:mm:ss" then substring 11 8 iso
  else if String.eqb template "YYYY.MM.DD HH:mm:ss.SSS" then
    substring 0 4 iso +:+ "." +:+ substring 5 2 iso +:+ "." +:+ substring 8 2 iso
    +:+ " " +:+ substring 11 12 iso
  else iso.

#[export] Instance host : Host := {|
  number := string;
  Date := string;
  zero := "0";
  Number_toString := fun lit => lit;
  Number_truthy := fun lit => negb (is_zero_literal lit);
  Date_format := format_iso;
  dayjs_other := fun v template =>
    match v with
    | VStr text => Ok (format_iso text template)
    | _ => Ok "Invalid Date"
    end;
  object_ToString := fun _ => Ok "[object Object]";
  oldHistoryPath := "/home/q/.vscode/q-query-history.json";
  historyPath := "/home/q/.cache/vscode-q-nodejs/q-query-history.json";
  path_dirname := dirname;
  JSON_parse := parse;
  JSON_parse_empty_array := eq_refl
|}.

(** *** Sample inputs *)

Definition dquote : string := String "034"%char EmptyString.

(** a JSON string literal without escapes *)
Definition quoted (s : string) : string := dquote +:+ s +:+ dquote.

Definition member (key value_text : string) : string :=
  quoted key +:+ ":" +:+ value_text.

(** the root as [createHistoryTree] builds it *)
Definition root : HistoryTreeItem :=
  item_of (History.mk host "root" "2020-05-01T10:00:00.000Z" "0"
             EmptyString EmptyString) None.

Definition record_abc : History.t :=
  History.mk host "a,b,c" "2020-05-01T10:00:01.000Z" "12" "til 3" EmptyString.

Definition record_failed : History.t :=
  History.mk host "dev,hdb" "2020-05-01T10:00:02.000Z" "3" "1+`a" "type".

(** a stored history with one well-formed record *)
Definition one_record_text : string :=
  "[{" +:+ member "uniqLabel" (quoted "dev,hdb") +:+ ","
  +:+ member "time" (quoted "2020-05-01T10:00:02.000Z") +:+ ","
  +:+ member "duration" "3" +:+ ","
  +:+ member "query" (quoted "1+`a") +:+ ","
  +:+ member "errorMsg" (quoted "type") +:+ "}]".

(** valid JSON, but the duration is a string where the format asks for
    a number, and there is no query *)
Definition wrong_duration_text : string :=
  "[{" +:+ member "uniqLabel" (quoted "dev,hdb") +:+ ","
  +:+ member "time" (quoted "2020-05-01T10:00:02.000Z") +:+ ","
  +:+ member "duration" (quoted "slow") +:+ ","
  +:+ member "errorMsg" (quoted "type") +:+ "}]".

Definition world_with (files : gmap string string) : World :=
  {| disk := files; log := [] |}.

Definition console : StatusBar.QConnManager :=
  {| StatusBar.queryMode := "Console"; StatusBar.consoleMode := true |}.

(** a stored history whose second element is not a record *)
Definition second_element_bad_text : string :=
  "[{" +:+ member "uniqLabel" (quoted "dev,hdb") +:+ ","
  +:+ member "time" (quoted "2020-05-01T10:00:02.000Z") +:+ ","
  +:+ member "duration" "3" +:+ ","
  +:+ member "query" (quoted "1+`a") +:+ ","
  +:+ member "errorMsg" (quoted "type") +:+ "}, 7]".

(** what [one_record_text] parses to *)
Definition one_record_value : val :=
  VObj (<["uniqLabel" := VStr "dev,hdb"]>
       (<["time" := VStr "2020-05-01T10:00:02.000Z"]>
       (<["duration" := VNum "3"]>
       (<["query" := VStr "1+`a"]>
       (<["errorMsg" := VStr "type"]> ∅))))).

(** [path.join] on a file name and a relative path without dots *)
Definition join (a b : string) : string := a +:+ "/" +:+ b.

End Sample.

(** ** The rest of the tree item *)

Section Presentation.
Context `{host : Host}.

(** [path.join] with two arguments and [__filename], from the platform *)
Variable path_join : string -> string -> string.
Variable __filename : string.

Record IconPath : Type := mkIconPath {
  light : string;
  dark : string
}.

(** The [iconPath] getter (lines 118-130). *)
Definition iconPath (this : HistoryTreeItem) : IconPath :=
  if ToBoolean (errorMsg this) then
    {| light := path_join __filename "../../assets/svg/light/error.svg";
       dark := path_join __filename "../../assets/svg/dark/error.svg" |}
  else
    {| light := path_join __filename "../../assets/svg/light/pass.svg";
       dark := path_join __filename "../../assets/svg/dark/pass.svg" |}.

(** [getTreeItem] (lines 98-100) *)
Definition getTreeItem (this e : HistoryTreeItem) : HistoryTreeItem := e.

(** [refresh] called [n] times in a row on the same item, each call
    awaited; the first exception ends the run. *)
Fixpoint refresh_times (n : nat) : Eff HistoryTreeItem unit :=
  match n with
  | O => mret tt
  | S n' => refresh;; refresh_times n'
  end.

End Presentation.

(** * Properties *)

(** ** Strings *)

Lemma prefix_comma (c : ascii) (rest : string) :
  String.prefix "," (String c rest) = Ascii.eqb c ","%char.
Proof.
  change (String.prefix "," (String c rest))
    with (if ascii_dec "," c then String.prefix EmptyString rest else false).
  destruct (ascii_dec "," c) as [<- | Hne].
  - by destruct rest.
  - symmetry. apply Ascii.eqb_neq. congruence.
Qed.

Lemma String_replace_comma (s : string) :
  String_replace "," "-" s = first_comma_to_dash s.
Proof.
  induction s as [| c rest IH]; [done |].
  cbn [String_replace first_comma_to_dash]. rewrite prefix_comma.
  destruct (Ascii.eqb c ","%char); [done |]. by rewrite IH.
Qed.

Lemma first_comma_to_dash_absent (s : string) :
  count_char "," s = 0 -> first_comma_to_dash s = s.
Proof.
  induction s as [| c rest IH]; [done |]. cbn.
  destruct (Ascii.eqb c ","%char); [done |]. intros H. by rewrite IH.
Qed.

Lemma commas_to_dashes_absent (s : string) :
  count_char "," s = 0 -> commas_to_dashes s = s.
Proof.
  induction s as [| c rest IH]; [done |]. cbn.
  destruct (Ascii.eqb c ","%char); [done |]. intros H. by rewrite IH.
Qed.

(** With at most one comma in the text, replacing the first comma replaces
    them all. *)
Lemma first_comma_to_dash_all (s : string) :
  count_char "," s <= 1 -> first_comma_to_dash s = commas_to_dashes s.
Proof.
  induction s as [| c rest IH]; [done |]. cbn.
  destruct (Ascii.eqb c ","%char); cbn; intros H.
  - f_equal. symmetry. apply commas_to_dashes_absent. lia.
  - f_equal. by apply IH.
Qed.

(** The first comma, and only that one, is replaced. *)
Lemma first_comma_to_dash_split (before rest : string) :
  count_char "," before = 0 ->
  first_comma_to_dash (before +:+ "," +:+ rest) = before +:+ "-" +:+ rest.
Proof.
  induction before as [| c before' IH]; [done |]. simpl in *.
  destruct (Ascii.eqb c ","%char); [done |]. intros H. by rewrite IH.
Qed.

Section Facts.
Context `{host : Host}.

Local Abbreviation val := (value number Date).

(** ** The constructor *)

Lemma Get_to_value (h : History.t) :
  Get (History.to_value h) "uniqLabel" = Ok (VStr (History.uniqLabel h))
  /\ Get (History.to_value h) "time" = Ok (VDate (History.time h))
  /\ Get (History.to_value h) "duration" = Ok (VNum (History.duration h))
  /\ Get (History.to_value h) "query" = Ok (VStr (History.query h))
  /\ Get (History.to_value h) "errorMsg" = Ok (VStr (History.errorMsg h)).
Proof.
  unfold Get, History.to_value.
  repeat split; f_equal;
    repeat (rewrite lookup_insert_ne by done); by rewrite lookup_insert_eq.
Qed.

(** On a well-typed record the constructor does not throw. *)
Lemma new_HistoryTreeItem_typed (h : History.t) (parent : option TreeRef) :
  new_HistoryTreeItem (History.to_value h) parent = Ok (item_of h parent).
Proof.
  destruct (Get_to_value h) as (Hl & Ht & Hd & Hq & He).
  unfold new_HistoryTreeItem, item_of. rewrite Hl, Ht, Hd, Hq, He. cbn.
  by destruct (negb _).
Qed.

Lemma new_HistoryTreeItem_fresh (history : val) (parent : option TreeRef)
    (e : HistoryTreeItem) :
  new_HistoryTreeItem history parent = Ok e ->
  _parent e = parent /\ _children e = [].
Proof.
  unfold new_HistoryTreeItem. intros H.
  repeat match type of H with
         | (mbind _ ?m) = _ => destruct m; cbn in H; [| discriminate]
         end.
  injection H as <-. done.
Qed.

Lemma History_of_item_of (h : History.t) (parent : option TreeRef) :
  History_of_item (item_of h parent) = Some h.
Proof. by destruct h. Qed.

Lemma Array_map_leaves (elements : list val) (items : list HistoryTreeItem) :
  Array_map (fun h => new_HistoryTreeItem h (Some currentHistoryTree_ref)) elements
    = Ok items ->
  Forall is_leaf items.
Proof.
  revert items. induction elements as [| h rest IH]; intros items; cbn.
  - intros [= <-]. constructor.
  - destruct (new_HistoryTreeItem h _) as [e |] eqn:He; cbn; [| discriminate].
    destruct (Array_map _ rest) as [es |]; cbn; [| discriminate].
    intros [= <-]. constructor; [| by apply IH].
    by apply new_HistoryTreeItem_fresh in He.
Qed.

(** ** The file system calls *)

Lemma fileExists_present {S} (p : string) (s : S) (w : World) (data : string) :
  disk w !! p = Some data ->
  fileExists p s w = (Ok true, s, emit (Ev_fileExists p) w).
Proof. intros H. unfold fileExists. by rewrite H. Qed.

Lemma fileExists_absent {S} (p : string) (s : S) (w : World) :
  disk w !! p = None ->
  fileExists p s w = (Ok false, s, emit (Ev_fileExists p) w).
Proof. intros H. unfold fileExists. by rewrite H. Qed.

(** The three ways through the initialization step. *)
Lemma ensureInitialized_present {S} (s : S) (w : World) (text : string) :
  disk w !! historyPath = Some text ->
  ensureInitialized s w = (Ok tt, s, emit (Ev_fileExists historyPath) w).
Proof.
  intros H. unfold ensureInitialized, mbind, Eff_bind.
  by rewrite (fileExists_present _ _ _ _ H).
Qed.

Lemma ensureInitialized_migrate {S} (s : S) (w : World) (C : string) :
  disk w !! historyPath = None ->
  disk w !! oldHistoryPath = Some C ->
  ensureInitialized s w = (Ok tt, s, migrated C w).
Proof.
  intros Hnew Hold.
  assert (historyPath ≠ oldHistoryPath) as Hne by congruence.
  unfold ensureInitialized, mbind, Eff_bind.
  rewrite (fileExists_absent _ _ _ Hnew). cbn.
  unfold fileExists. cbn. rewrite Hold. cbn.
  unfold fs_copyFile. cbn. rewrite Hold. cbn.
  unfold fs_unlink. cbn. rewrite lookup_insert_ne by done. rewrite Hold.
  unfold migrated, emit, set_disk. cbn. by rewrite <- !app_assoc.
Qed.

Lemma ensureInitialized_fresh {S} (s : S) (w : World) :
  disk w !! historyPath = None ->
  disk w !! oldHistoryPath = None ->
  ensureInitialized s w = (Ok tt, s, initialized w).
Proof.
  intros Hnew Hold.
  unfold ensureInitialized, mbind, Eff_bind.
  rewrite (fileExists_absent _ _ _ Hnew). cbn.
  unfold fileExists. cbn. rewrite Hold. cbn.
  unfold initialized, fs_writeFile, emit, set_disk. cbn. by rewrite <- !app_assoc.
Qed.

(** ** The branches of [refresh] *)

Lemma refresh_child (this : HistoryTreeItem) (w : World) :
  _parent this <> None ->
  refresh this w = (Ok tt, this, w).
Proof.
  intros H. unfold refresh, mbind, Eff_bind, get_obj.
  destruct (_parent this); [done | congruence].
Qed.

Lemma refresh_cached (this : HistoryTreeItem) (w : World) :
  _parent this = None ->
  _children this <> [] ->
  refresh this w = (Ok tt, this, emit Ev_fire w).
Proof.
  intros Hp Hc. unfold refresh, mbind, Eff_bind, get_obj. rewrite Hp. cbn.
  destruct (_children this); [done |]. done.
Qed.

Lemma refresh_cold (this : HistoryTreeItem) (w : World) :
  _parent this = None ->
  _children this = [] ->
  refresh this w = (ensureInitialized;; read_history) this w.
Proof.
  intros Hp Hc. unfold refresh, mbind at 1, Eff_bind at 1, get_obj.
  by rewrite Hp, Hc.
Qed.

Lemma read_history_parsed (this : HistoryTreeItem) (w : World) (text : string)
    (histories : val) :
  disk w !! historyPath = Some text ->
  JSON_parse text = Some histories ->
  read_history this w =
    match call_map histories
            (fun h => new_HistoryTreeItem h (Some currentHistoryTree_ref)) with
    | Ok items =>
        (Ok tt, set_children items this, emit Ev_fire (emit (Ev_readFile historyPath) w))
    | Throw e => (Throw e, this, emit (Ev_readFile historyPath) w)
    end.
Proof.
  intros Hd Hj. unfold read_history, mbind, Eff_bind, fs_readFile, lift, call_JSON_parse.
  rewrite Hd, Hj. by destruct (call_map _ _).
Qed.

Lemma read_history_malformed (this : HistoryTreeItem) (w : World) (text : string) :
  disk w !! historyPath = Some text ->
  JSON_parse text = None ->
  read_history this w = (Throw SyntaxError, this, emit (Ev_readFile historyPath) w).
Proof.
  intros Hd Hj. unfold read_history, mbind, Eff_bind, fs_readFile, lift, call_JSON_parse.
  by rewrite Hd, Hj.
Qed.

(** [read_history] leaves the disk alone, and whatever it throws, it
    throws before it assigns [_children]. *)
Lemma read_history_frame (this : HistoryTreeItem) (w : World) :
  disk (read_history this w).2 = disk w
  /\ (forall e, (read_history this w).1.1 = Throw e -> (read_history this w).1.2 = this)
  /\ exists evs, log (read_history this w).2 = log w ++ evs
                 /\ Forall (fun e => is_disk_mutation e = false) evs.
Proof.
  unfold read_history, mbind, Eff_bind, fs_readFile, lift.
  destruct (disk w !! historyPath) as [text |]; cbn.
  2: { split; [done |]. split; [done |]. exists [Ev_readFile historyPath].
       split; [done |]. by repeat constructor. }
  destruct (call_JSON_parse text) as [histories |]; cbn.
  2: { split; [done |]. split; [done |]. exists [Ev_readFile historyPath].
       split; [done |]. by repeat constructor. }
  destruct (call_map _ _) as [items |]; cbn.
  2: { split; [done |]. split; [done |]. exists [Ev_readFile historyPath].
       split; [done |]. by repeat constructor. }
  split; [done |]. split; [done |]. exists [Ev_readFile historyPath; Ev_fire].
  split; [by rewrite <- app_assoc |]. by repeat constructor.
Qed.


Lemma set_children_same (this : HistoryTreeItem) :
  set_children (_children this) this = this.
Proof. by destruct this. Qed.

(** In this model the initialization step always succeeds, and it never
    touches the receiver. *)
Lemma ensureInitialized_total {S} (s : S) (w : World) :
  exists w', ensureInitialized s w = (Ok tt, s, w').
Proof.
  destruct (disk w !! historyPath) as [text |] eqn:Hnew.
  - eexists. by eapply ensureInitialized_present.
  - destruct (disk w !! oldHistoryPath) as [C |] eqn:Hold.
    + eexists. by apply ensureInitialized_migrate.
    + eexists. by apply ensureInitialized_fresh.
Qed.

(** The outcome of reading depends on the text of the history file only. *)
Lemma read_history_outcome (this this' : HistoryTreeItem) (w w' : World) :
  disk w !! historyPath = disk w' !! historyPath ->
  (read_history this w).1.1 = (read_history this' w').1.1.
Proof.
  intros H. unfold read_history, mbind, Eff_bind, fs_readFile, lift. rewrite <- H.
  destruct (disk w !! historyPath) as [text |]; cbn; [| done].
  destruct (call_JSON_parse text) as [histories |]; cbn; [| done].
  by destruct (call_map _ _).
Qed.

Lemma read_history_receiver (this : HistoryTreeItem) (w : World) :
  (read_history this w).1.2 = this
  \/ exists items, Forall is_leaf items
                   /\ (read_history this w).1.2 = set_children items this.
Proof.
  unfold read_history, mbind, Eff_bind, fs_readFile, lift.
  destruct (disk w !! historyPath) as [text |]; cbn; [| by left].
  unfold call_JSON_parse. destruct (JSON_parse text) as [histories |]; cbn; [| by left].
  destruct (call_map _ _) as [items |] eqn:Hmap; cbn; [| by left].
  right. exists items. split; [| done].
  destruct histories; try discriminate. by eapply Array_map_leaves.
Qed.

(** [refresh] throws before it assigns anything. *)
Lemma refresh_throw_keeps_this (this : HistoryTreeItem) (w : World) (e : Error) :
  (refresh this w).1.1 = Throw e -> (refresh this w).1.2 = this.
Proof.
  destruct (_parent this) as [p |] eqn:Hp.
  { rewrite refresh_child by congruence. done. }
  destruct (_children this) as [| c cs] eqn:Hc.
  2: { rewrite refresh_cached by congruence. done. }
  rewrite refresh_cold by done. unfold mbind, Eff_bind.
  destruct (ensureInitialized_total this w) as [w' ->].
  apply read_history_frame.
Qed.

(** ** The shape of the tree is an invariant *)

Lemma refresh_tree_ok (tree : HistoryTreeItem) (w : World) :
  tree_ok tree -> tree_ok (refresh tree w).1.2.
Proof.
  intros [Hp Hleaves].
  destruct (decide (_children tree = [])) as [Hc | Hc].
  2: { rewrite refresh_cached by done. by split. }
  rewrite refresh_cold by done. unfold mbind, Eff_bind.
  destruct (ensureInitialized_total tree w) as [w' ->].
  destruct (read_history_receiver tree w') as [-> | (items & Hitems & ->)].
  - by split.
  - by split.
Qed.

Lemma appendHistory_tree_ok (history : val) (tree : HistoryTreeItem) (w : World) :
  tree_ok tree ->
  exists tree', (appendHistory history (Some tree) w).1.2 = Some tree' /\ tree_ok tree'.
Proof.
  intros Hok. unfold appendHistory, on_currentHistoryTree, mbind, Eff_bind, lift.
  destruct (new_HistoryTreeItem history _) as [item |] eqn:Hitem; cbn.
  2: { by exists tree. }
  unfold not_awaited.
  set (tree1 := set_children (item :: _children tree) tree).
  assert (tree_ok tree1) as Hok1.
  { destruct Hok as [Hp Hl]. split; [done |]. constructor; [| done].
    by apply new_HistoryTreeItem_fresh in Hitem. }
  pose proof (refresh_tree_ok tree1 w Hok1) as Hok2.
  destruct (refresh tree1 w) as [[r tree2] w2]. by exists tree2.
Qed.

Lemma createHistoryTree_tree_ok (now : Date) (current : option HistoryTreeItem)
    (w : World) :
  (forall tree, current = Some tree -> tree_ok tree) ->
  forall tree', (createHistoryTree now current w).1.2 = Some tree' -> tree_ok tree'.
Proof.
  intros Hcur tree'. unfold createHistoryTree, mbind, Eff_bind, get_obj, lift.
  destruct current as [tree |].
  - cbn. intros [= <-]. by apply Hcur.
  - rewrite new_HistoryTreeItem_typed. cbn. intros [= <-]. split; [done |]. constructor.
Qed.

Lemma step_tree_ok (p q : Prog) :
  step p q ->
  (forall tree, p.1 = Some tree -> tree_ok tree) ->
  forall tree, q.1 = Some tree -> tree_ok tree.
Proof.
  intros Hstep. destruct Hstep as [now current w | current w | history current w | d current w];
    cbn; intros Hcur tree'.
  - by apply createHistoryTree_tree_ok.
  - unfold on_currentHistoryTree. destruct current as [tree |]; [| done].
    pose proof (refresh_tree_ok tree w (Hcur tree eq_refl)) as Hok.
    destruct (refresh tree w) as [[r tree1] w1]. cbn. by intros [= <-].
  - destruct current as [tree |]; [| done].
    destruct (appendHistory_tree_ok history tree w (Hcur tree eq_refl))
      as (tree1 & -> & Hok).
    by intros [= <-].
  - by apply Hcur.
Qed.

Lemma reachable_tree_ok (p : Prog) :
  reachable p -> forall tree, p.1 = Some tree -> tree_ok tree.
Proof.
  induction 1 as [w | p q _ IH Hstep]; [done |]. by eapply step_tree_ok.
Qed.


(** ** Initialization and loading *)

(** C1. Migration happens once.  Take a root item with an empty cache, no
    file at the current location and a legacy file holding [C].  After one
    [refresh] the current file holds [C] and the legacy file is gone,
    whatever [C] is.  A second [refresh] leaves the disk as it is and makes
    no call that could change it (no [mkdir], [copyFile], [unlink] or
    [writeFile]); and if the first call returned normally, so does the
    second.  The initialization step taken by itself migrates without
    error, and run again it only tests for the file. *)
Theorem refresh_migrates_once (this : HistoryTreeItem) (w : World) (C : string) :
  _parent this = None ->
  _children this = [] ->
  disk w !! historyPath = None ->
  disk w !! oldHistoryPath = Some C ->
  let first := refresh this w in
  let second := refresh first.1.2 first.2 in
  disk first.2 !! historyPath = Some C
  /\ disk first.2 !! oldHistoryPath = None
  /\ disk second.2 = disk first.2
  /\ (exists evs, log second.2 = log first.2 ++ evs
                  /\ Forall (fun e => is_disk_mutation e = false) evs)
  /\ (first.1.1 = Ok tt -> second.1.1 = Ok tt)
  /\ ensureInitialized this w = (Ok tt, this, migrated C w)
  /\ ensureInitialized this (migrated C w)
     = (Ok tt, this, emit (Ev_fileExists historyPath) (migrated C w)).
Proof.
  intros Hp Hc Hnew Hold first second.
  assert (historyPath ≠ oldHistoryPath) as Hne by congruence.
  assert (ensureInitialized this w = (Ok tt, this, migrated C w)
          /\ ensureInitialized this (migrated C w)
             = (Ok tt, this, emit (Ev_fileExists historyPath) (migrated C w)))
    as Hinit.
  { split; [by apply ensureInitialized_migrate |].
    apply (ensureInitialized_present _ _ C). cbn.
    rewrite lookup_delete_ne by done. apply lookup_insert_eq. }
  cut (disk first.2 !! historyPath = Some C
       /\ disk first.2 !! oldHistoryPath = None
       /\ disk second.2 = disk first.2
       /\ (exists evs, log second.2 = log first.2 ++ evs
                       /\ Forall (fun e => is_disk_mutation e = false) evs)
       /\ (first.1.1 = Ok tt -> second.1.1 = Ok tt)).
  { intros (H1 & H2 & H3 & H4 & H5). by repeat (split; [done |]). }
  assert (first = read_history this (migrated C w)) as Hfirst.
  { unfold first. rewrite refresh_cold by done. unfold mbind, Eff_bind.
    by rewrite (ensureInitialized_migrate _ _ _ Hnew Hold). }
  destruct (read_history_frame this (migrated C w)) as (Hdisk & _ & _).
  rewrite <- Hfirst in Hdisk.
  assert (disk first.2 !! historyPath = Some C) as Hcur.
  { rewrite Hdisk. cbn. rewrite lookup_delete_ne by done. apply lookup_insert_eq. }
  assert (_parent first.1.2 = None) as Hp1.
  { rewrite Hfirst.
    by destruct (read_history_receiver this (migrated C w)) as [-> | (items & _ & ->)]. }
  split; [done |]. split.
  { rewrite Hdisk. cbn. apply lookup_delete_eq. }
  destruct (decide (_children first.1.2 = [])) as [Hc1 | Hc1].
  - assert (second = read_history first.1.2 (emit (Ev_fileExists historyPath) first.2))
      as Hsecond.
    { unfold second. rewrite refresh_cold by done. unfold mbind, Eff_bind.
      by rewrite (ensureInitialized_present _ _ _ Hcur). }
    destruct (read_history_frame first.1.2 (emit (Ev_fileExists historyPath) first.2))
      as (Hdisk2 & _ & evs & Hlog & Hevs).
    rewrite <- Hsecond in Hdisk2, Hlog.
    split; [done |]. split.
    + exists (Ev_fileExists historyPath :: evs). split; [| by constructor].
      rewrite Hlog. cbn. by rewrite <- app_assoc.
    + intros Hok. rewrite Hsecond, <- Hok.
      rewrite (read_history_outcome first.1.2 this
                 (emit (Ev_fileExists historyPath) first.2) (migrated C w));
        [by rewrite Hfirst |].
      cbn. by rewrite Hdisk.
  - unfold second. rewrite refresh_cached by done. cbn.
    split; [done |]. split; [| done].
    exists [Ev_fire]. split; [done |]. by repeat constructor.
Qed.

(** C6. Cold start.  With no file at either location, [refresh] on a root
    with an empty cache returns normally; afterwards the current file
    exists, its text parses to the empty list, and the children are empty. *)
Theorem refresh_cold_start (this : HistoryTreeItem) (w : World) :
  _parent this = None ->
  _children this = [] ->
  disk w !! historyPath = None ->
  disk w !! oldHistoryPath = None ->
  exists text,
    refresh this w
      = (Ok tt, this, emit Ev_fire (emit (Ev_readFile historyPath) (initialized w)))
    /\ disk (refresh this w).2 !! historyPath = Some text
    /\ JSON_parse text = Some (VArr [])
    /\ _children (refresh this w).1.2 = [].
Proof.
  intros Hp Hc Hnew Hold. exists "[]".
  assert (refresh this w
          = (Ok tt, this, emit Ev_fire (emit (Ev_readFile historyPath) (initialized w))))
    as Hrun.
  { rewrite refresh_cold by done. unfold mbind, Eff_bind.
    rewrite (ensureInitialized_fresh _ _ Hnew Hold).
    rewrite (read_history_parsed this (initialized w) "[]" (VArr []));
      [| apply lookup_insert_eq | apply JSON_parse_empty_array].
    cbn. by rewrite <- Hc, set_children_same. }
  rewrite Hrun. cbn. split; [done |]. split; [apply lookup_insert_eq |].
  split; [apply JSON_parse_empty_array | done].
Qed.

(** C5. A non-empty cache is never refreshed from disk.  On a root whose
    children are not empty, [refresh] only fires the change event: it
    makes no file-system call, whatever the disk holds by now, and [load]
    returns the cached children. *)
Theorem refresh_uses_cache (this : HistoryTreeItem) (w : World)
    (changed : gmap string string) :
  _parent this = None ->
  _children this <> [] ->
  refresh this (set_disk changed w) = (Ok tt, this, emit Ev_fire (set_disk changed w))
  /\ load (Some this) (set_disk changed w)
     = (Ok (_children this), Some this, emit Ev_fire (set_disk changed w)).
Proof.
  intros Hp Hc. split; [by apply refresh_cached |].
  unfold load, on_currentHistoryTree, mbind, Eff_bind.
  by rewrite refresh_cached.
Qed.

(** C8 (amended). Malformed JSON surfaces.  If the current file exists and
    [JSON.parse] rejects its text, [refresh] on a root with an empty cache
    throws that [SyntaxError]; it has only tested and read the file, it
    fires no event, and the item (so its children) is as before. *)
Theorem refresh_malformed_json (this : HistoryTreeItem) (w : World) (text : string) :
  _parent this = None ->
  _children this = [] ->
  disk w !! historyPath = Some text ->
  JSON_parse text = None ->
  refresh this w
    = (Throw SyntaxError, this,
       emit (Ev_readFile historyPath) (emit (Ev_fileExists historyPath) w)).
Proof.
  intros Hp Hc Hd Hj. rewrite refresh_cold by done. unfold mbind, Eff_bind.
  rewrite (ensureInitialized_present _ _ _ Hd).
  by rewrite (read_history_malformed _ _ text).
Qed.

(** C10. On an item that has a parent, [refresh] does nothing at all: no
    file-system call, no event, no change of the item. *)
Theorem refresh_non_root (this : HistoryTreeItem) (w : World) :
  _parent this <> None ->
  refresh this w = (Ok tt, this, w).
Proof. apply refresh_child. Qed.


(** ** Appending *)

Lemma appendHistory_typed (record : History.t) (tree : HistoryTreeItem) (w : World) :
  _parent tree = None ->
  appendHistory (History.to_value record) (Some tree) w
    = (Ok tt,
       Some (set_children (item_of record (Some currentHistoryTree_ref) :: _children tree)
                          tree),
       emit Ev_fire w).
Proof.
  intros Hp. unfold appendHistory, on_currentHistoryTree, mbind, Eff_bind, lift.
  rewrite new_HistoryTreeItem_typed. cbn. unfold not_awaited.
  by rewrite refresh_cached.
Qed.

(** C4. [appendHistory] writes nothing.  Whatever it is given and whatever
    state it finds, the disk afterwards is the disk before and the call
    makes no file-system call at all; with a record from a caller and the
    tree in place, it puts the new item in front of the children and fires
    the change event once. *)
Theorem appendHistory_no_disk_write (history : val)
    (current : option HistoryTreeItem) (w : World)
    (record : History.t) (tree : HistoryTreeItem) :
  _parent tree = None ->
  disk (appendHistory history current w).2 = disk w
  /\ (exists evs, log (appendHistory history current w).2 = log w ++ evs
                  /\ Forall (fun e => is_fs_event e = false) evs)
  /\ appendHistory (History.to_value record) (Some tree) w
     = (Ok tt,
        Some (set_children (item_of record (Some currentHistoryTree_ref) :: _children tree)
                           tree),
        emit Ev_fire w).
Proof.
  intros Hp. split; [| split; [| by apply appendHistory_typed]].
  - unfold appendHistory, on_currentHistoryTree, mbind, Eff_bind, lift.
    destruct current as [t |]; [| done].
    destruct (new_HistoryTreeItem history _) as [item |]; [| done].
    cbn. unfold not_awaited.
    destruct (decide (_parent t = None)) as [Ht | Ht].
    + by rewrite refresh_cached.
    + by rewrite refresh_child.
  - unfold appendHistory, on_currentHistoryTree, mbind, Eff_bind, lift.
    destruct current as [t |]; [| by exists []; rewrite app_nil_r].
    destruct (new_HistoryTreeItem history _) as [item |];
      [| by exists []; rewrite app_nil_r].
    cbn. unfold not_awaited.
    destruct (decide (_parent t = None)) as [Ht | Ht].
    + rewrite refresh_cached by done. exists [Ev_fire]. by repeat constructor.
    + rewrite refresh_child by done. exists []. by rewrite app_nil_r.
Qed.

Lemma appendAll_typed (records : list History.t) (tree : HistoryTreeItem) (w : World) :
  _parent tree = None ->
  appendAll records (Some tree) w
    = (Ok tt,
       Some (set_children
               (((fun r => item_of r (Some currentHistoryTree_ref)) <$> rev records)
                ++ _children tree) tree),
       {| disk := disk w; log := log w ++ replicate (length records) Ev_fire |}).
Proof.
  revert tree w. induction records as [| r rest IH]; intros tree w Hp.
  - cbn. rewrite set_children_same, app_nil_r. by destruct w.
  - cbn [appendAll]. unfold mbind, Eff_bind.
    rewrite appendHistory_typed by done.
    rewrite IH by done. cbn. rewrite fmap_app, <- !app_assoc. done.
Qed.

Lemma load_empty_history (root : HistoryTreeItem) (w : World) :
  _parent root = None ->
  _children root = [] ->
  history_file_empty (disk w) ->
  exists w', load (Some root) w = (Ok [], Some root, w').
Proof.
  intros Hp Hc Hempty. unfold history_file_empty in Hempty.
  unfold load, on_currentHistoryTree. unfold mbind at 1, Eff_bind at 1.
  rewrite refresh_cold by done. unfold mbind at 1, Eff_bind at 1.
  assert (set_children [] root = root) as Hsame by (by rewrite <- Hc, set_children_same).
  destruct (disk w !! historyPath) as [text |] eqn:Hnew.
  - rewrite (ensureInitialized_present _ _ _ Hnew).
    rewrite (read_history_parsed _ _ text (VArr [])) by done.
    cbn. rewrite Hsame. unfold mbind, Eff_bind, get_obj. cbn. rewrite Hc. by eexists.
  - destruct (disk w !! oldHistoryPath) as [text |] eqn:Hold.
    + assert (historyPath ≠ oldHistoryPath) as Hne by congruence.
      rewrite (ensureInitialized_migrate _ _ _ Hnew Hold).
      rewrite (read_history_parsed _ _ text (VArr [])); [| | done].
      2: { cbn. rewrite lookup_delete_ne by done. apply lookup_insert_eq. }
      cbn. rewrite Hsame. unfold mbind, Eff_bind, get_obj. cbn. rewrite Hc. by eexists.
    + rewrite (ensureInitialized_fresh _ _ Hnew Hold).
      rewrite (read_history_parsed _ _ "[]" (VArr []));
        [| apply lookup_insert_eq | apply JSON_parse_empty_array].
      cbn. rewrite Hsame. unfold mbind, Eff_bind, get_obj. cbn. rewrite Hc. by eexists.
Qed.

(** C3. Most recent first.  Start from a root with no children and a disk
    that holds no history.  After [appendHistory] has been called with
    r1, ..., rN in this order, [load] returns the items of rN, ..., r1, in
    this order, each carrying the fields of its record. *)
Theorem appends_most_recent_first (records : list History.t)
    (root : HistoryTreeItem) (w : World) :
  _parent root = None ->
  _children root = [] ->
  history_file_empty (disk w) ->
  exists items current' w',
    (appendAll records;; load) (Some root) w = (Ok items, current', w')
    /\ items = (fun r => item_of r (Some currentHistoryTree_ref)) <$> rev records
    /\ History_of_item <$> items = Some <$> rev records.
Proof.
  intros Hp Hc Hempty.
  exists ((fun r => item_of r (Some currentHistoryTree_ref)) <$> rev records).
  unfold mbind at 1, Eff_bind at 1. rewrite appendAll_typed by done.
  rewrite Hc, app_nil_r.
  assert (History_of_item <$> ((fun r => item_of r (Some currentHistoryTree_ref))
                               <$> rev records) = Some <$> rev records) as Hview.
  { rewrite <- list_fmap_compose. apply list_fmap_ext. intros i r _.
    exact (History_of_item_of r (Some currentHistoryTree_ref)). }
  destruct (rev records) as [| r rest] eqn:Hrev.
  - assert (set_children [] root = root) as Hsame
      by (by rewrite <- Hc, set_children_same).
    cbn [fmap list_fmap] in *. rewrite Hsame.
    destruct (load_empty_history root
                {| disk := disk w; log := log w ++ replicate (length records) Ev_fire |})
      as [w' Hload]; [done .. |].
    rewrite Hload. by eexists _, _.
  - unfold load, on_currentHistoryTree, mbind, Eff_bind.
    rewrite refresh_cached by done. cbn. by eexists _, _.
Qed.

(** ** Reading the tree *)

(** C7. The tree is flat.  In every state the program can reach,
    [getChildren] without argument or with the root returns the root's
    children, which is also what [load] returns; on each of these children,
    and on any item that is not a [HistoryTreeItem], it returns the empty
    list. *)
Theorem getChildren_flat (tree : HistoryTreeItem) (w : World) :
  reachable (Some tree, w) ->
  getChildren tree None = _children tree
  /\ getChildren tree (Some (THistory tree)) = _children tree
  /\ (forall e, e ∈ _children tree -> getChildren tree (Some (THistory e)) = [])
  /\ (forall other, getChildren tree (Some (TOther other)) = [])
  /\ (forall items current' w',
        load (Some tree) w = (Ok items, current', w') ->
        exists tree', current' = Some tree'
                      /\ getChildren tree' None = items
                      /\ getChildren tree' (Some (THistory tree')) = items).
Proof.
  intros Hreach.
  destruct (reachable_tree_ok _ Hreach tree eq_refl) as [Hp Hleaves].
  split; [done |]. split; [done |]. split; [| split; [done |]].
  - intros e He. rewrite Forall_forall in Hleaves. by destruct (Hleaves e He).
  - intros items current' w'. unfold load, on_currentHistoryTree, mbind, Eff_bind.
    destruct (refresh tree w) as [[[[] | err] tree1] w1]; cbn; [| done].
    intros [= <- <- <-]. by exists tree1.
Qed.

(** ** Labels *)

(** C2 (amended). The first comma of the label, and only the first, is
    replaced by a dash in the tree label, in the server line of the tooltip
    and in the connection status text; the [uniqLabel] field keeps the label
    as given.  A label with at most one comma is therefore shown without
    commas. *)
Theorem label_first_comma_replaced (record : History.t) (parent : option TreeRef)
    (conn : StatusBar.QConnManager) (m : StatusBar.QStatusBarManager) :
  let shown := first_comma_to_dash (History.uniqLabel record) in
  exists item m',
    new_HistoryTreeItem (History.to_value record) parent = Ok item
    /\ label item = shown +:+ " | " +:+ Date_format (History.time record) "HH:mm:ss"
    /\ head (tooltip item) = Some (Markdown ("- server: " +:+ shown +:+ LF))
    /\ uniqLabel item = VStr (History.uniqLabel record)
    /\ StatusBar.updateConnStatus conn (Some (History.uniqLabel record)) (Some m)
       = (Ok tt, Some m')
    /\ StatusBar.text (StatusBar.connStatusBar m')
       = StatusBar.index0_text (StatusBar.queryMode conn) +:+ ":" +:+ shown
    /\ (count_char "," (History.uniqLabel record) <= 1 ->
        shown = commas_to_dashes (History.uniqLabel record)).
Proof.
  intros shown. exists (item_of record parent).
  unfold StatusBar.updateConnStatus, StatusBar.with_current.
  destruct (StatusBar.consoleMode conn); eexists;
    (split; [apply new_HistoryTreeItem_typed |]);
    cbn; rewrite !String_replace_comma;
    repeat (split; [done |]); apply first_comma_to_dash_all.
Qed.

End Facts.

(** ** The status bar *)

(** C9. The unlimited-query item has the inverted sense: with the manager
    in place, [updateUnlimitedQueryStatus isLimited] leaves it hidden when
    [isLimited] is true and shown when it is false, and [updateQueryStatus
    show] leaves the querying item shown exactly when [show] is true.  Each
    call changes nothing but the visibility of its own item. *)
Theorem query_status_visibility (m : StatusBar.QStatusBarManager) (flag : bool) :
  (exists m',
     StatusBar.updateUnlimitedQueryStatus flag (Some m) = (Ok tt, Some m')
     /\ StatusBar.visible (StatusBar.unlimitedQueryStatusBar m') = negb flag
     /\ StatusBar.show (StatusBar.unlimitedQueryStatusBar m')
        = StatusBar.show (StatusBar.unlimitedQueryStatusBar m)
     /\ StatusBar.connStatusBar m' = StatusBar.connStatusBar m
     /\ StatusBar.queryStatusBar m' = StatusBar.queryStatusBar m)
  /\ (exists m',
        StatusBar.updateQueryStatus flag (Some m) = (Ok tt, Some m')
        /\ StatusBar.visible (StatusBar.queryStatusBar m') = flag
        /\ StatusBar.show (StatusBar.queryStatusBar m')
           = StatusBar.show (StatusBar.queryStatusBar m)
        /\ StatusBar.connStatusBar m' = StatusBar.connStatusBar m
        /\ StatusBar.unlimitedQueryStatusBar m' = StatusBar.unlimitedQueryStatusBar m).
Proof.
  split; destruct flag; eexists; (split; [reflexivity |]); by repeat split.
Qed.


(** ** The properties at work on the sample platform *)

#[local] Existing Instance Sample.host.

Lemma refresh_migrates_once_witness :
  let w := Sample.world_with {[ oldHistoryPath := Sample.one_record_text ]} in
  (_parent Sample.root = None /\ _children Sample.root = []
   /\ disk w !! historyPath = None
   /\ disk w !! oldHistoryPath = Some Sample.one_record_text)
  /\ disk (refresh Sample.root w).2 !! historyPath = Some Sample.one_record_text
  /\ disk (refresh Sample.root w).2 !! oldHistoryPath = None.
Proof.
  intros w.
  assert (_parent Sample.root = None) as Hp by reflexivity.
  assert (_children Sample.root = []) as Hc by reflexivity.
  assert (disk w !! historyPath = None) as Hnew by (vm_compute; reflexivity).
  assert (disk w !! oldHistoryPath = Some Sample.one_record_text) as Hold
    by (vm_compute; reflexivity).
  split; [done |].
  destruct (refresh_migrates_once Sample.root w Sample.one_record_text Hp Hc Hnew Hold)
    as (H1 & H2 & _).
  by split.
Defined.

Lemma refresh_cold_start_witness :
  let w := Sample.world_with ∅ in
  (_parent Sample.root = None /\ _children Sample.root = []
   /\ disk w !! historyPath = None /\ disk w !! oldHistoryPath = None)
  /\ exists text,
       disk (refresh Sample.root w).2 !! historyPath = Some text
       /\ JSON_parse text = Some (VArr []).
Proof.
  intros w. split; [done |].
  destruct (refresh_cold_start Sample.root w eq_refl eq_refl eq_refl eq_refl)
    as (text & _ & H1 & H2 & _).
  by exists text.
Defined.

Lemma appends_most_recent_first_witness :
  let w := Sample.world_with ∅ in
  (_parent Sample.root = None /\ _children Sample.root = []
   /\ history_file_empty (disk w))
  /\ exists items current' w',
       (appendAll [Sample.record_failed; Sample.record_abc];; load) (Some Sample.root) w
         = (Ok items, current', w')
       /\ History_of_item <$> items = [Some Sample.record_abc; Some Sample.record_failed].
Proof.
  intros w.
  assert (history_file_empty (disk w)) as Hempty by (vm_compute; exact I).
  split; [done |].
  destruct (appends_most_recent_first [Sample.record_failed; Sample.record_abc]
              Sample.root w eq_refl eq_refl Hempty)
    as (items & current' & w' & Hrun & _ & Hview).
  by exists items, current', w'.
Defined.

Lemma appendHistory_no_disk_write_witness :
  let w := Sample.world_with {[ historyPath := Sample.one_record_text ]} in
  _parent Sample.root = None
  /\ disk (appendHistory (History.to_value Sample.record_abc) (Some Sample.root) w).2
     = disk w
  /\ log (appendHistory (History.to_value Sample.record_abc) (Some Sample.root) w).2
     = [Ev_fire].
Proof.
  intros w. split; [done |].
  destruct (appendHistory_no_disk_write (History.to_value Sample.record_abc)
              (Some Sample.root) w Sample.record_abc Sample.root eq_refl)
    as (Hdisk & _ & Hrun).
  split; [exact Hdisk |]. by rewrite Hrun.
Defined.

Lemma refresh_uses_cache_witness :
  let this := set_children [item_of Sample.record_abc (Some currentHistoryTree_ref)]
                           Sample.root in
  let w := Sample.world_with {[ historyPath := "[]" ]} in
  let changed : gmap string string := {[ historyPath := Sample.one_record_text ]} in
  (_parent this = None /\ _children this <> [])
  /\ load (Some this) (set_disk changed w)
     = (Ok [item_of Sample.record_abc (Some currentHistoryTree_ref)], Some this,
        emit Ev_fire (set_disk changed w)).
Proof.
  intros this w changed.
  assert (_children this <> []) as Hc by discriminate.
  split; [done |].
  by destruct (refresh_uses_cache this w changed eq_refl Hc) as [_ Hload].
Defined.

Lemma refresh_malformed_json_witness :
  let w := Sample.world_with {[ historyPath := "not json" ]} in
  (_parent Sample.root = None /\ _children Sample.root = []
   /\ disk w !! historyPath = Some "not json"
   /\ JSON_parse "not json" = None)
  /\ (refresh Sample.root w).1 = (Throw SyntaxError, Sample.root).
Proof.
  intros w.
  assert (disk w !! historyPath = Some "not json") as Hd by (vm_compute; reflexivity).
  assert (JSON_parse "not json" = None) as Hj by (vm_compute; reflexivity).
  split; [done |].
  by rewrite (refresh_malformed_json Sample.root w "not json" eq_refl eq_refl Hd Hj).
Defined.

Lemma refresh_non_root_witness :
  let this := item_of Sample.record_abc (Some currentHistoryTree_ref) in
  let w := Sample.world_with ∅ in
  _parent this <> None /\ refresh this w = (Ok tt, this, w).
Proof.
  intros this w.
  assert (_parent this <> None) as Hp by discriminate.
  split; [done |]. exact (refresh_non_root this w Hp).
Defined.

Lemma getChildren_flat_witness :
  let leaf := item_of Sample.record_abc (Some currentHistoryTree_ref) in
  let tree := set_children [leaf] Sample.root in
  let w := emit Ev_fire (Sample.world_with ∅) in
  reachable (Some tree, w)
  /\ getChildren tree None = [leaf]
  /\ getChildren tree (Some (THistory leaf)) = [].
Proof.
  intros leaf tree w.
  assert (reachable (Some tree, w)) as Hreach.
  { apply (reachable_step (Some Sample.root, Sample.world_with ∅)).
    - apply (reachable_step (None, Sample.world_with ∅)); [constructor |].
      exact (step_create "2020-05-01T10:00:00.000Z" None (Sample.world_with ∅)).
    - exact (step_append (History.to_value Sample.record_abc)
                         (Some Sample.root) (Sample.world_with ∅)). }
  split; [exact Hreach |].
  destruct (getChildren_flat tree w Hreach) as (Hroot & _ & Hleaf & _).
  split; [exact Hroot |]. apply Hleaf. apply list_elem_of_here.
Defined.

Lemma label_first_comma_replaced_witness :
  count_char "," (History.uniqLabel Sample.record_failed) <= 1
  /\ exists item,
       new_HistoryTreeItem (History.to_value Sample.record_failed)
                           (Some currentHistoryTree_ref) = Ok item
       /\ label item = "dev-hdb | 10:00:02"
       /\ uniqLabel item = VStr "dev,hdb".
Proof.
  assert (count_char "," (History.uniqLabel Sample.record_failed) <= 1) as Hone
    by (vm_compute; lia).
  split; [exact Hone |].
  destruct (label_first_comma_replaced Sample.record_failed
              (Some currentHistoryTree_ref) Sample.console
              StatusBar.new_QStatusBarManager)
    as (item & m' & Hnew & Hlabel & _ & Hfield & _ & _ & Hall).
  exists item. split; [exact Hnew |]. split; [| exact Hfield].
  rewrite Hlabel, (Hall Hone). reflexivity.
Defined.

(** C2, as stated, fails on a label with two commas: the second comma
    reaches the tree label, the tooltip and the status text. *)
Lemma label_keeps_later_commas :
  let item := item_of Sample.record_abc (Some currentHistoryTree_ref) in
  History.uniqLabel Sample.record_abc = "a,b,c"
  /\ commas_to_dashes "a,b,c" = "a-b-c"
  /\ new_HistoryTreeItem (History.to_value Sample.record_abc)
                         (Some currentHistoryTree_ref) = Ok item
  /\ label item = "a-b,c | 10:00:01"
  /\ head (tooltip item) = Some (Markdown ("- server: a-b,c" +:+ LF))
  /\ (exists m',
        StatusBar.updateConnStatus Sample.console (Some "a,b,c")
          (Some StatusBar.new_QStatusBarManager) = (Ok tt, Some m')
        /\ StatusBar.text (StatusBar.connStatusBar m') = "C:a-b,c")
  /\ label item
     <> commas_to_dashes (History.uniqLabel Sample.record_abc) +:+ " | "
        +:+ Date_format (History.time Sample.record_abc) "HH:mm:ss".
Proof.
  intros item. split; [reflexivity |]. split; [reflexivity |].
  split; [apply new_HistoryTreeItem_typed |]. split; [reflexivity |].
  split; [reflexivity |]. split; [| by vm_compute].
  eexists. split; reflexivity.
Qed.

(** C8, as stated, fails on text that is valid JSON but not in the history
    format: [refresh] returns normally and the ill-formed record becomes a
    child. *)
Lemma refresh_accepts_ill_typed_record :
  let w := Sample.world_with {[ historyPath := Sample.wrong_duration_text ]} in
  _parent Sample.root = None
  /\ _children Sample.root = []
  /\ disk w !! historyPath = Some Sample.wrong_duration_text
  /\ (exists v, JSON_parse Sample.wrong_duration_text = Some v)
  /\ valid_history_text Sample.wrong_duration_text = false
  /\ (refresh Sample.root w).1.1 = Ok tt
  /\ (refresh Sample.root w).1.1 <> Throw SyntaxError
  /\ duration <$> _children (refresh Sample.root w).1.2 = [VStr "slow"]
  /\ query <$> _children (refresh Sample.root w).1.2 = [VUndefined].
Proof.
  intros w. split; [reflexivity |]. split; [reflexivity |].
  split; [vm_compute; reflexivity |].
  split; [vm_compute; eexists; reflexivity |].
  split; [vm_compute; reflexivity |].
  assert ((refresh Sample.root w).1.1 = Ok tt) as Hok by (vm_compute; reflexivity).
  split; [exact Hok |]. split; [rewrite Hok; discriminate |].
  split; vm_compute; reflexivity.
Qed.

(** * Further properties of the code *)

(** ** The comma replacement, counted *)

Lemma first_comma_to_dash_count (s : string) :
  count_char "," (first_comma_to_dash s) = pred (count_char "," s)
  /\ String.length (first_comma_to_dash s) = String.length s.
Proof.
  induction s as [| c rest [IHc IHl]]; [done |]. cbn.
  destruct (Ascii.eqb c ","%char) eqn:Hc; cbn.
  - done.
  - rewrite Hc, IHc, IHl. done.
Qed.

(** X1. [replace(',', '-')] keeps the length of the text and takes away
    exactly one comma when there is one (and none when there is none). *)
Theorem String_replace_one_comma_fewer (s : string) :
  count_char "," (String_replace "," "-" s) = pred (count_char "," s)
  /\ String.length (String_replace "," "-" s) = String.length s.
Proof. rewrite String_replace_comma. apply first_comma_to_dash_count. Qed.

(** ** Array.prototype.map with a throwing callback *)

Lemma Array_map_pointwise {A B} (f : A -> Res B) (xs : list A) (ys : list B) :
  Array_map f xs = Ok ys -> Forall2 (fun x y => f x = Ok y) xs ys.
Proof.
  revert ys. induction xs as [| x rest IH]; intros ys; cbn.
  - intros [= <-]. constructor.
  - destruct (f x) as [y |] eqn:Hy; cbn; [| discriminate].
    destruct (Array_map f rest) as [ys' |]; cbn; [| discriminate].
    intros [= <-]. constructor; [done |]. by apply IH.
Qed.

Lemma Array_map_succeeds {A B} (f : A -> Res B) (xs : list A) :
  Forall (fun x => exists y, f x = Ok y) xs -> exists ys, Array_map f xs = Ok ys.
Proof.
  induction 1 as [| x rest [y Hy] _ [ys IH]]; cbn.
  - by exists [].
  - rewrite Hy, IH. cbn. by eexists.
Qed.

Lemma Array_map_throws {A B} (f : A -> Res B) (xs : list A) (x : A) (e : Error) :
  x ∈ xs -> f x = Throw e -> exists e', Array_map f xs = Throw e'.
Proof.
  intros Hin Hx. induction xs as [| x' rest IH]; [by apply elem_of_nil in Hin |].
  apply elem_of_cons in Hin as [<- | Hin]; cbn.
  - rewrite Hx. cbn. by eexists.
  - destruct (f x') as [y |]; cbn; [| by eexists].
    destruct (IH Hin) as [e' ->]. cbn. by eexists.
Qed.

Section MoreFacts.
Context `{host : Host}.

Local Abbreviation val := (value number Date).

(** ** The constructor on arbitrary values *)

(** X2. The constructor needs a string label.  On [undefined], on [null]
    and on any value whose [uniqLabel] is missing or is not a string it
    throws a [TypeError]. *)
Theorem new_HistoryTreeItem_needs_label (history : val) (parent : option TreeRef) :
  (forall s, Get history "uniqLabel" <> Ok (VStr s)) ->
  new_HistoryTreeItem history parent = Throw TypeError.
Proof.
  intros Hlabel. unfold new_HistoryTreeItem.
  destruct (Get history "uniqLabel") as [v | e] eqn:Hget.
  - destruct v; cbn; try done. by destruct (Hlabel s).
  - destruct history; cbn in Hget; try discriminate; by injection Hget as <-.
Qed.

(** X3. An item shows its error or its query, never both, and the icon
    follows the tooltip.  Whatever value the constructor accepts, the
    tooltip of the item is three header lines followed either by the error
    section with the stored [errorMsg], and then the icons are the error
    icons, or by the query section with the stored [query], and then the
    icons are the pass icons; the first case is the one where [errorMsg] is
    truthy. *)
Theorem tooltip_and_icon_agree (path_join : string -> string -> string)
    (__filename : string) (history : val) (parent : option TreeRef)
    (item : HistoryTreeItem) :
  new_HistoryTreeItem history parent = Ok item ->
  exists server stamp dur,
    if ToBoolean (errorMsg item) then
      tooltip item = [ Markdown server; Markdown stamp; Markdown dur;
                       Markdown "- error:"; Codeblock (errorMsg item) "q" ]
      /\ iconPath path_join __filename item
         = {| light := path_join __filename "../../assets/svg/light/error.svg";
              dark := path_join __filename "../../assets/svg/dark/error.svg" |}
    else
      tooltip item = [ Markdown server; Markdown stamp; Markdown dur;
                       Markdown "- query:"; Codeblock (query item) "q" ]
      /\ iconPath path_join __filename item
         = {| light := path_join __filename "../../assets/svg/light/pass.svg";
              dark := path_join __filename "../../assets/svg/dark/pass.svg" |}.
Proof.
  unfold new_HistoryTreeItem, iconPath. intros H.
  repeat match type of H with
         | (mbind _ ?m) = _ => destruct m; cbn in H; [| discriminate]
         end.
  injection H as <-. cbn. do 3 eexists.
  destruct (ToBoolean _); cbn; split; reflexivity.
Qed.


(** ** Loading, case by case *)

Lemma ensureInitialized_effect {S} (s : S) (w : World) :
  exists w',
    ensureInitialized s w = (Ok tt, s, w')
    /\ is_Some (disk w' !! historyPath)
    /\ (is_Some (disk w !! historyPath) -> disk w' = disk w)
    /\ exists evs, log w' = log w ++ evs
                   /\ Forall (fun e => is_fs_event e = true) evs
                   /\ (is_Some (disk w !! historyPath) ->
                       Forall (fun e => is_disk_mutation e = false) evs).
Proof.
  destruct (disk w !! historyPath) as [text |] eqn:Hnew.
  - eexists. split; [by eapply ensureInitialized_present |]. cbn.
    split; [by rewrite Hnew |]. split; [done |].
    eexists. split; [done |]. by repeat constructor.
  - destruct (disk w !! oldHistoryPath) as [C |] eqn:Hold.
    + assert (historyPath ≠ oldHistoryPath) as Hne by congruence.
      eexists. split; [by apply ensureInitialized_migrate |]. cbn.
      split; [by rewrite lookup_delete_ne, lookup_insert_eq |].
      split; [by intros [? ?] |].
      eexists. split; [done |]. split; [by repeat constructor | by intros [? ?]].
    + eexists. split; [by apply ensureInitialized_fresh |]. cbn.
      split; [by rewrite lookup_insert_eq |].
      split; [by intros [? ?] |].
      eexists. split; [done |]. split; [by repeat constructor | by intros [? ?]].
Qed.

Lemma read_history_log (this : HistoryTreeItem) (w : World) :
  log (read_history this w).2
  = log w ++ match (read_history this w).1.1 with
             | Ok _ => [Ev_readFile historyPath; Ev_fire]
             | Throw _ => [Ev_readFile historyPath]
             end.
Proof.
  unfold read_history, mbind, Eff_bind, fs_readFile, lift.
  destruct (disk w !! historyPath) as [text |]; cbn; [| done].
  destruct (call_JSON_parse text) as [histories |]; cbn; [| done].
  destruct (call_map _ _) as [items |]; cbn; [| done].
  by rewrite <- app_assoc.
Qed.

(** The result and the item after reading depend on the text of the
    history file only. *)
Lemma read_history_text_only (this : HistoryTreeItem) (w w' : World) :
  disk w !! historyPath = disk w' !! historyPath ->
  (read_history this w).1 = (read_history this w').1.
Proof.
  intros H. unfold read_history, mbind, Eff_bind, fs_readFile, lift. rewrite <- H.
  destruct (disk w !! historyPath) as [text |]; cbn; [| done].
  destruct (call_JSON_parse text) as [histories |]; cbn; [| done].
  by destruct (call_map _ _).
Qed.

(** X4. An existing history file is never rewritten.  If the current file
    exists, [refresh] on any item in any state leaves the whole disk as it
    was, a legacy file included, and makes no call that could change it. *)
Theorem refresh_keeps_existing_file (this : HistoryTreeItem) (w : World) :
  is_Some (disk w !! historyPath) ->
  disk (refresh this w).2 = disk w
  /\ exists evs, log (refresh this w).2 = log w ++ evs
                 /\ Forall (fun e => is_disk_mutation e = false) evs.
Proof.
  intros Hfile.
  destruct (decide (_parent this = None)) as [Hp | Hp].
  2: { rewrite refresh_child by done. split; [done |]. exists []. by rewrite app_nil_r. }
  destruct (decide (_children this = [])) as [Hc | Hc].
  2: { rewrite refresh_cached by done. split; [done |]. exists [Ev_fire].
       by repeat constructor. }
  rewrite refresh_cold by done. unfold mbind, Eff_bind.
  destruct (ensureInitialized_effect this w)
    as (w' & -> & _ & Hsame & evs & Hlog & _ & Hquiet).
  destruct (read_history_frame this w') as (Hdisk & _ & evs' & Hlog' & Hquiet').
  split; [by rewrite Hdisk, Hsame |].
  exists (evs ++ evs'). split; [by rewrite Hlog', Hlog, app_assoc |].
  apply Forall_app. split; [by apply Hquiet | done].
Qed.


(** X6. A load is all or nothing.  If the file parses to an array and the
    constructor throws on one of its elements, [refresh] throws, fires no
    event, and the item keeps its (empty) children: the records before the
    offending one are not kept. *)
Theorem refresh_rejects_whole_file (this : HistoryTreeItem) (w : World)
    (text : string) (elements : list val) (bad : val) (e : Error) :
  _parent this = None ->
  _children this = [] ->
  disk w !! historyPath = Some text ->
  JSON_parse text = Some (VArr elements) ->
  bad ∈ elements ->
  new_HistoryTreeItem bad (Some currentHistoryTree_ref) = Throw e ->
  exists e',
    refresh this w
    = (Throw e', this,
       emit (Ev_readFile historyPath) (emit (Ev_fileExists historyPath) w)).
Proof.
  intros Hp Hc Hd Hj Hin Hbad. rewrite refresh_cold by done. unfold mbind, Eff_bind.
  rewrite (ensureInitialized_present _ _ _ Hd).
  rewrite (read_history_parsed _ _ text (VArr elements)) by done. cbn.
  destruct (Array_map_throws
              (fun h => new_HistoryTreeItem h (Some currentHistoryTree_ref))
              elements bad e Hin Hbad) as [e' ->].
  by exists e'.
Qed.

(** X7. Valid JSON that is not an array (an object, a number, a string,
    [null], ...) makes [refresh] throw a [TypeError] at the call of [map];
    no event is fired and the item is unchanged. *)
Theorem refresh_not_an_array (this : HistoryTreeItem) (w : World)
    (text : string) (v : val) :
  _parent this = None ->
  _children this = [] ->
  disk w !! historyPath = Some text ->
  JSON_parse text = Some v ->
  (forall elements, v <> VArr elements) ->
  refresh this w
  = (Throw TypeError, this,
     emit (Ev_readFile historyPath) (emit (Ev_fileExists historyPath) w)).
Proof.
  intros Hp Hc Hd Hj Hv. rewrite refresh_cold by done. unfold mbind, Eff_bind.
  rewrite (ensureInitialized_present _ _ _ Hd).
  rewrite (read_history_parsed _ _ text v) by done.
  destruct v; try done. by destruct (Hv elements).
Qed.

(** X8. A successful load keeps the order of the file.  If the file parses
    to an array on whose every element the constructor succeeds, [refresh]
    returns normally after one existence test, one read and one change
    event, and the children are, position by position, the items built from
    the elements, each a leaf below the root. *)
Theorem refresh_loads_in_file_order (this : HistoryTreeItem) (w : World)
    (text : string) (elements : list val) :
  _parent this = None ->
  _children this = [] ->
  disk w !! historyPath = Some text ->
  JSON_parse text = Some (VArr elements) ->
  Forall (fun h => exists item,
            new_HistoryTreeItem h (Some currentHistoryTree_ref) = Ok item) elements ->
  exists items,
    refresh this w
    = (Ok tt, set_children items this,
       emit Ev_fire (emit (Ev_readFile historyPath) (emit (Ev_fileExists historyPath) w)))
    /\ Forall2 (fun h item =>
                  new_HistoryTreeItem h (Some currentHistoryTree_ref) = Ok item)
               elements items
    /\ length items = length elements
    /\ Forall is_leaf items.
Proof.
  intros Hp Hc Hd Hj Hall.
  destruct (Array_map_succeeds
              (fun h => new_HistoryTreeItem h (Some currentHistoryTree_ref))
              elements Hall) as [items Hitems].
  exists items. split.
  { rewrite refresh_cold by done. unfold mbind, Eff_bind.
    rewrite (ensureInitialized_present _ _ _ Hd).
    rewrite (read_history_parsed _ _ text (VArr elements)) by done. cbn.
    by rewrite Hitems. }
  pose proof (Array_map_pointwise _ _ _ Hitems) as Hpoint.
  split; [done |]. split; [symmetry; by eapply Forall2_length |].
  by eapply Array_map_leaves.
Qed.

(** X9. Observers hear of a refresh exactly when it succeeds.  On a root,
    the calls [refresh] adds to the log are file-system calls followed by
    one change event when it returns normally, and file-system calls only
    when it throws. *)
Theorem refresh_fires_iff_ok (this : HistoryTreeItem) (w : World) :
  _parent this = None ->
  exists fs_calls,
    Forall (fun e => is_fs_event e = true) fs_calls
    /\ log (refresh this w).2
       = log w ++ fs_calls ++ match (refresh this w).1.1 with
                              | Ok _ => [Ev_fire]
                              | Throw _ => []
                              end.
Proof.
  intros Hp.
  destruct (decide (_children this = [])) as [Hc | Hc].
  2: { rewrite refresh_cached by done. exists []. by split. }
  rewrite refresh_cold by done. unfold mbind, Eff_bind.
  destruct (ensureInitialized_effect this w)
    as (w' & -> & _ & _ & evs & Hlog & Hfs & _).
  exists (evs ++ [Ev_readFile historyPath]).
  split; [apply Forall_app; split; [done | by repeat constructor] |].
  rewrite read_history_log, Hlog.
  destruct ((read_history this w').1.1); by rewrite <- !app_assoc.
Qed.

(** X10. An empty history is never cached.  When the file holds the empty
    array, each [refresh] of the root tests for the file, reads it and
    fires again, and leaves item and disk as they were: [n] calls in a row
    read the file [n] times. *)
Theorem empty_history_read_every_time (this : HistoryTreeItem) (w : World)
    (text : string) (n : nat) :
  _parent this = None ->
  _children this = [] ->
  disk w !! historyPath = Some text ->
  JSON_parse text = Some (VArr []) ->
  refresh_times n this w
  = (Ok tt, this,
     {| disk := disk w;
        log := log w ++ concat (replicate n [ Ev_fileExists historyPath;
                                              Ev_readFile historyPath;
                                              Ev_fire ]) |}).
Proof.
  intros Hp Hc Hd Hj. revert w Hd. induction n as [| n IH]; intros w Hd.
  - cbn. rewrite app_nil_r. by destruct w.
  - cbn [refresh_times]. unfold mbind at 1, Eff_bind at 1.
    rewrite refresh_cold by done. unfold mbind at 1, Eff_bind at 1.
    rewrite (ensureInitialized_present _ _ _ Hd).
    rewrite (read_history_parsed _ _ text (VArr [])) by done. cbn.
    assert (set_children [] this = this) as -> by (by rewrite <- Hc, set_children_same).
    rewrite IH by done. cbn. by rewrite <- !app_assoc.
Qed.


(** ** Appending and the session *)

(** X11. Appending before the first load hides the stored history.  On a
    root that has not loaded yet, once at least one record has been
    appended, [load] returns the appended records only, most recent first:
    the history file is neither tested nor read, whatever it holds, and the
    only events are the change events. *)
Theorem append_before_load_hides_file (records : list History.t)
    (root : HistoryTreeItem) (w : World) :
  _parent root = None ->
  _children root = [] ->
  records <> [] ->
  let items := (fun r => item_of r (Some currentHistoryTree_ref)) <$> rev records in
  (appendAll records;; load) (Some root) w
  = (Ok items, Some (set_children items root),
     {| disk := disk w;
        log := log w ++ replicate (length records) Ev_fire ++ [Ev_fire] |}).
Proof.
  intros Hp Hc Hne items.
  unfold mbind at 1, Eff_bind at 1. rewrite appendAll_typed by done.
  rewrite Hc, app_nil_r. fold items.
  assert (items <> []) as Hitems.
  { unfold items. destruct records as [| r rest]; [done |]. cbn.
    rewrite fmap_app. by destruct (_ <$> rev rest). }
  unfold load, on_currentHistoryTree, mbind, Eff_bind.
  rewrite refresh_cached by done. cbn. unfold emit. cbn.
  by rewrite <- app_assoc.
Qed.

(** X12. A failed append changes nothing.  [appendHistory] throws only when
    the tree has not been created or the constructor rejects the record,
    and then the static field and the world are as before: nothing was put
    in front and no event was fired. *)
Theorem appendHistory_fails_cleanly (history : val)
    (current : option HistoryTreeItem) (w : World) (e : Error) :
  (appendHistory history current w).1.1 = Throw e ->
  appendHistory history current w = (Throw e, current, w)
  /\ (current = None
      \/ new_HistoryTreeItem history (Some currentHistoryTree_ref) = Throw e).
Proof.
  unfold appendHistory, on_currentHistoryTree, mbind, Eff_bind, lift.
  destruct current as [tree |]; cbn.
  2: { intros [= <-]. split; [done | by left]. }
  destruct (new_HistoryTreeItem history _) as [item | e'] eqn:Hitem; cbn.
  2: { intros [= <-]. split; [done | by right]. }
  unfold not_awaited. by destruct (refresh _ w) as [[r t] w'].
Qed.




(** X14. The tree has depth one.  In every state the program can reach,
    [getParent] of the root is [null] and [getParent] of each of its
    children is the root. *)
Theorem getParent_depth_one (tree : HistoryTreeItem) (w : World) :
  reachable (Some tree, w) ->
  getParent tree = None
  /\ Forall (fun e => getParent e = Some currentHistoryTree_ref) (_children tree).
Proof.
  intros Hreach.
  destruct (reachable_tree_ok _ Hreach tree eq_refl) as [Hp Hleaves].
  split; [done |]. eapply Forall_impl; [exact Hleaves |]. by intros e [He _].
Qed.

Lemma refresh_disk_only (this : HistoryTreeItem) (w1 w2 : World) :
  disk w1 = disk w2 ->
  (refresh this w1).1 = (refresh this w2).1.
Proof.
  intros Hdisk.
  destruct (decide (_parent this = None)) as [Hp | Hp].
  2: { by rewrite !refresh_child. }
  destruct (decide (_children this = [])) as [Hc | Hc].
  2: { by rewrite !refresh_cached. }
  rewrite !refresh_cold by done. unfold mbind, Eff_bind.
  destruct (disk w1 !! historyPath) as [text |] eqn:Hnew.
  - rewrite (ensureInitialized_present this w1 text) by done.
    rewrite (ensureInitialized_present this w2 text) by (by rewrite <- Hdisk).
    apply read_history_text_only. cbn. by rewrite Hdisk.
  - destruct (disk w1 !! oldHistoryPath) as [C |] eqn:Hold.
    + rewrite (ensureInitialized_migrate this w1 C) by done.
      rewrite (ensureInitialized_migrate this w2 C) by (by rewrite <- Hdisk).
      apply read_history_text_only. cbn. by rewrite Hdisk.
    + rewrite (ensureInitialized_fresh this w1) by done.
      rewrite (ensureInitialized_fresh this w2) by (by rewrite <- Hdisk).
      apply read_history_text_only. cbn. by rewrite Hdisk.
Qed.

(** X15. Appended records do not outlive the session.  After any number of
    appends the disk is what it was, so a new session (a root that has not
    loaded yet) loads exactly what it would have loaded had nothing been
    appended. *)
Theorem appended_records_not_persisted (records : list History.t)
    (tree fresh : HistoryTreeItem) (w : World) :
  _parent tree = None ->
  disk (appendAll records (Some tree) w).2 = disk w
  /\ (load (Some fresh) (appendAll records (Some tree) w).2).1.1
     = (load (Some fresh) w).1.1.
Proof.
  intros Hp. rewrite appendAll_typed by done. cbn. split; [done |].
  unfold load, on_currentHistoryTree, mbind, Eff_bind.
  pose proof (refresh_disk_only fresh
                {| disk := disk w;
                   log := log w ++ replicate (length records) Ev_fire |} w eq_refl)
    as Hsame.
  destruct (refresh fresh {| disk := disk w; log := _ |}) as [[r1 t1] w1].
  destruct (refresh fresh w) as [[r2 t2] w2].
  cbn in Hsame. injection Hsame as -> ->. by destruct r2.
Qed.

(** X16. There is one tree.  [createHistoryTree] never touches the world.
    When the tree exists it returns that tree as it is, children included;
    otherwise it builds a root labelled "root" with no parent and no
    children.  A second call, at whatever time, returns the tree of the
    first and changes nothing. *)
Theorem createHistoryTree_singleton (now later : Date)
    (current : option HistoryTreeItem) (w : World) :
  exists tree,
    createHistoryTree now current w = (Ok tree, Some tree, w)
    /\ createHistoryTree later (Some tree) w = (Ok tree, Some tree, w)
    /\ match current with
       | Some existing => tree = existing
       | None => uniqLabel tree = VStr "root"
                 /\ _parent tree = None /\ _children tree = []
       end.
Proof.
  unfold createHistoryTree, mbind, Eff_bind, get_obj, lift.
  destruct current as [existing |].
  - by exists existing.
  - rewrite new_HistoryTreeItem_typed. cbn. by eexists.
Qed.

End MoreFacts.

(** ** The status bar, call after call *)

(** X17. Before [create] every update throws.  With [current] still
    undefined, each of the four static updates throws a [TypeError] and
    leaves [current] undefined. *)
Theorem status_updates_need_create (conn : StatusBar.QConnManager)
    (label : option string) (flag : bool) :
  StatusBar.updateConnStatus conn label None = (Throw TypeError, None)
  /\ StatusBar.updateConnStatusColor conn None = (Throw TypeError, None)
  /\ StatusBar.updateQueryStatus flag None = (Throw TypeError, None)
  /\ StatusBar.updateUnlimitedQueryStatus flag None = (Throw TypeError, None).
Proof.
  unfold StatusBar.updateConnStatus, StatusBar.updateConnStatusColor.
  by destruct (StatusBar.consoleMode conn), flag.
Qed.

(** X18. There is one manager.  [create] returns the manager in place, with
    whatever its items show by now, and a second call returns the same
    one; without a manager it builds one whose connection item is shown and
    whose two query items are hidden. *)
Theorem status_create_singleton (current : option StatusBar.QStatusBarManager) :
  exists m,
    StatusBar.create current = (Ok m, Some m)
    /\ StatusBar.create (Some m) = (Ok m, Some m)
    /\ match current with
       | Some existing => m = existing
       | None =>
           StatusBar.visible (StatusBar.connStatusBar m) = true
           /\ StatusBar.visible (StatusBar.queryStatusBar m) = false
           /\ StatusBar.visible (StatusBar.unlimitedQueryStatusBar m) = false
       end.
Proof. destruct current as [existing |]; by eexists. Qed.

(** X19. What a connection update shows.  With the manager in place,
    [updateConnStatus] writes the first character of the query mode, a
    colon, and then "No Connection" when there is no label, or else the
    label with its first comma turned into a dash; the color is pink in
    console mode and blue otherwise.  It neither shows nor hides the item
    and leaves the two query items alone. *)
Theorem updateConnStatus_shows (conn : StatusBar.QConnManager)
    (label : option string) (m : StatusBar.QStatusBarManager) :
  exists m',
    StatusBar.updateConnStatus conn label (Some m) = (Ok tt, Some m')
    /\ StatusBar.text (StatusBar.connStatusBar m')
       = StatusBar.index0_text (StatusBar.queryMode conn) +:+ ":"
         +:+ match label with
             | None => "No Connection"
             | Some l => first_comma_to_dash l
             end
    /\ StatusBar.color (StatusBar.connStatusBar m')
       = Some (if StatusBar.consoleMode conn then "#FF79C6" else "#8BE9FD")
    /\ StatusBar.visible (StatusBar.connStatusBar m')
       = StatusBar.visible (StatusBar.connStatusBar m)
    /\ StatusBar.queryStatusBar m' = StatusBar.queryStatusBar m
    /\ StatusBar.unlimitedQueryStatusBar m' = StatusBar.unlimitedQueryStatusBar m.
Proof.
  unfold StatusBar.updateConnStatus, StatusBar.with_current.
  destruct (StatusBar.consoleMode conn); eexists; (split; [reflexivity |]); cbn;
    (split; [| done]); f_equal; f_equal; destruct label as [l |]; cbn;
    by rewrite ?String_replace_comma.
Qed.

(** X20. The last update wins.  For each of the three items, an update
    after an earlier update of the same item gives the state and result the
    later update alone would have given, whether or not the manager
    exists. *)
Theorem status_last_update_wins (current : option StatusBar.QStatusBarManager)
    (conn1 conn2 : StatusBar.QConnManager) (label1 label2 : option string)
    (a b : bool) :
  StatusBar.updateConnStatus conn2 label2
    (StatusBar.updateConnStatus conn1 label1 current).2
  = StatusBar.updateConnStatus conn2 label2 current
  /\ StatusBar.updateQueryStatus b (StatusBar.updateQueryStatus a current).2
     = StatusBar.updateQueryStatus b current
  /\ StatusBar.updateUnlimitedQueryStatus b
       (StatusBar.updateUnlimitedQueryStatus a current).2
     = StatusBar.updateUnlimitedQueryStatus b current.
Proof.
  unfold StatusBar.updateConnStatus.
  destruct current as [m |], (StatusBar.consoleMode conn1),
    (StatusBar.consoleMode conn2), a, b; done.
Qed.

(** X21. The color update agrees with the full update.  After a connection
    update, [updateConnStatusColor] under a possibly different console mode
    gives exactly what the connection update would have given under that
    console mode: the text stays and only the color follows the mode. *)
Theorem updateConnStatusColor_agrees (current : option StatusBar.QStatusBarManager)
    (conn : StatusBar.QConnManager) (label : option string) (console_now : bool) :
  StatusBar.updateConnStatusColor
    {| StatusBar.queryMode := StatusBar.queryMode conn;
       StatusBar.consoleMode := console_now |}
    (StatusBar.updateConnStatus conn label current).2
  = StatusBar.updateConnStatus
      {| StatusBar.queryMode := StatusBar.queryMode conn;
         StatusBar.consoleMode := console_now |}
      label current.
Proof.
  unfold StatusBar.updateConnStatus, StatusBar.updateConnStatusColor.
  destruct current as [m |], (StatusBar.consoleMode conn), console_now; done.
Qed.

(** X22. Updates of different items do not interfere: the connection
    update, the querying update and the unlimited-query update commute
    pairwise. *)
Theorem status_updates_commute (current : option StatusBar.QStatusBarManager)
    (conn : StatusBar.QConnManager) (label : option string) (a b : bool) :
  StatusBar.updateQueryStatus a (StatusBar.updateUnlimitedQueryStatus b current).2
  = StatusBar.updateUnlimitedQueryStatus b (StatusBar.updateQueryStatus a current).2
  /\ StatusBar.updateQueryStatus a (StatusBar.updateConnStatus conn label current).2
     = StatusBar.updateConnStatus conn label (StatusBar.updateQueryStatus a current).2
  /\ StatusBar.updateUnlimitedQueryStatus b
       (StatusBar.updateConnStatus conn label current).2
     = StatusBar.updateConnStatus conn label
         (StatusBar.updateUnlimitedQueryStatus b current).2.
Proof.
  unfold StatusBar.updateConnStatus.
  destruct current as [m |], (StatusBar.consoleMode conn), a, b; done.
Qed.

(** ** These properties on the sample platform *)

Lemma new_HistoryTreeItem_needs_label_witness :
  (forall s, Get (VObj ∅) "uniqLabel" <> Ok (VStr s))
  /\ new_HistoryTreeItem (VObj ∅) (Some currentHistoryTree_ref) = Throw TypeError.
Proof.
  assert (forall s : string, Get (VObj ∅) "uniqLabel" <> Ok (VStr s)) as Hlabel
    by (intros s; vm_compute; discriminate).
  split; [exact Hlabel |].
  exact (new_HistoryTreeItem_needs_label (VObj ∅) (Some currentHistoryTree_ref) Hlabel).
Defined.

Lemma tooltip_and_icon_agree_witness :
  let item := item_of Sample.record_failed (Some currentHistoryTree_ref) in
  new_HistoryTreeItem (History.to_value Sample.record_failed)
                      (Some currentHistoryTree_ref) = Ok item
  /\ exists server stamp dur,
       tooltip item = [ Markdown server; Markdown stamp; Markdown dur;
                        Markdown "- error:"; Codeblock (VStr "type") "q" ]
       /\ iconPath Sample.join "/ext/dist/history.js" item
          = {| light := "/ext/dist/history.js/../../assets/svg/light/error.svg";
               dark := "/ext/dist/history.js/../../assets/svg/dark/error.svg" |}.
Proof.
  intros item.
  assert (new_HistoryTreeItem (History.to_value Sample.record_failed)
                              (Some currentHistoryTree_ref) = Ok item) as Hnew
    by apply new_HistoryTreeItem_typed.
  split; [exact Hnew |].
  exact (tooltip_and_icon_agree Sample.join "/ext/dist/history.js" _ _ _ Hnew).
Defined.

Lemma refresh_keeps_existing_file_witness :
  let w := Sample.world_with (<[ historyPath := "not json" ]>
                                {[ oldHistoryPath := Sample.one_record_text ]}) in
  is_Some (disk w !! historyPath)
  /\ disk (refresh Sample.root w).2 = disk w.
Proof.
  intros w.
  assert (is_Some (disk w !! historyPath)) as Hfile
    by (exists "not json"; vm_compute; reflexivity).
  split; [exact Hfile |].
  by destruct (refresh_keeps_existing_file Sample.root w Hfile) as [Hdisk _].
Defined.


Lemma refresh_rejects_whole_file_witness :
  let w := Sample.world_with {[ historyPath := Sample.second_element_bad_text ]} in
  (JSON_parse Sample.second_element_bad_text
     = Some (VArr [Sample.one_record_value; VNum "7"])
   /\ new_HistoryTreeItem (VNum "7") (Some currentHistoryTree_ref) = Throw TypeError)
  /\ exists e', (refresh Sample.root w).1 = (Throw e', Sample.root).
Proof.
  intros w.
  assert (disk w !! historyPath = Some Sample.second_element_bad_text) as Hd
    by (vm_compute; reflexivity).
  assert (JSON_parse Sample.second_element_bad_text
          = Some (VArr [Sample.one_record_value; VNum "7"])) as Hj
    by (vm_compute; reflexivity).
  assert (VNum "7" ∈ [Sample.one_record_value; VNum "7"]) as Hin
    by (apply list_elem_of_further, list_elem_of_here).
  assert (new_HistoryTreeItem (VNum "7") (Some currentHistoryTree_ref)
          = Throw TypeError) as Hbad by reflexivity.
  split; [done |].
  destruct (refresh_rejects_whole_file Sample.root w _ _ _ _ eq_refl eq_refl Hd Hj Hin Hbad)
    as [e' Hrun].
  exists e'. by rewrite Hrun.
Defined.

Lemma refresh_not_an_array_witness :
  let w := Sample.world_with {[ historyPath := "null" ]} in
  JSON_parse "null" = Some VNull
  /\ (refresh Sample.root w).1 = (Throw TypeError, Sample.root).
Proof.
  intros w.
  assert (disk w !! historyPath = Some "null") as Hd by (vm_compute; reflexivity).
  assert (JSON_parse "null" = Some VNull) as Hj by (vm_compute; reflexivity).
  assert (forall elements : list Sample.val, VNull <> VArr elements) as Hv
    by (intros elements; discriminate).
  split; [exact Hj |].
  by rewrite (refresh_not_an_array Sample.root w "null" VNull eq_refl eq_refl Hd Hj Hv).
Defined.

Lemma refresh_loads_in_file_order_witness :
  let w := Sample.world_with {[ historyPath := Sample.one_record_text ]} in
  JSON_parse Sample.one_record_text = Some (VArr [Sample.one_record_value])
  /\ exists items,
       (refresh Sample.root w).1 = (Ok tt, set_children items Sample.root)
       /\ length items = 1.
Proof.
  intros w.
  assert (disk w !! historyPath = Some Sample.one_record_text) as Hd
    by (vm_compute; reflexivity).
  assert (JSON_parse Sample.one_record_text = Some (VArr [Sample.one_record_value]))
    as Hj by (vm_compute; reflexivity).
  assert (Forall (fun h => exists item,
                    new_HistoryTreeItem h (Some currentHistoryTree_ref) = Ok item)
                 [Sample.one_record_value]) as Hall.
  { constructor; [| constructor]. eexists. reflexivity. }
  split; [exact Hj |].
  destruct (refresh_loads_in_file_order Sample.root w _ _ eq_refl eq_refl Hd Hj Hall)
    as (items & Hrun & _ & Hlen & _).
  exists items. by rewrite Hrun.
Defined.

Lemma refresh_fires_iff_ok_witness :
  let w := Sample.world_with {[ historyPath := "not json" ]} in
  _parent Sample.root = None
  /\ exists fs_calls,
       Forall (fun e => is_fs_event e = true) fs_calls
       /\ log (refresh Sample.root w).2 = fs_calls.
Proof.
  intros w. split; [done |].
  destruct (refresh_fires_iff_ok Sample.root w eq_refl) as (fs_calls & Hfs & Hlog).
  exists fs_calls. split; [exact Hfs |].
  rewrite Hlog.
  assert ((refresh Sample.root w).1.1 = Throw SyntaxError) as -> by (vm_compute; reflexivity).
  cbn. by rewrite app_nil_r.
Defined.

Lemma empty_history_read_every_time_witness :
  let w := Sample.world_with {[ historyPath := "[]" ]} in
  (disk w !! historyPath = Some "[]" /\ JSON_parse "[]" = Some (VArr []))
  /\ log (refresh_times 2 Sample.root w).2
     = [ Ev_fileExists historyPath; Ev_readFile historyPath; Ev_fire;
         Ev_fileExists historyPath; Ev_readFile historyPath; Ev_fire ].
Proof.
  intros w.
  assert (disk w !! historyPath = Some "[]") as Hd by (vm_compute; reflexivity).
  assert (JSON_parse "[]" = Some (VArr [])) as Hj by (vm_compute; reflexivity).
  split; [done |].
  by rewrite (empty_history_read_every_time Sample.root w "[]" 2 eq_refl eq_refl Hd Hj).
Defined.

Lemma append_before_load_hides_file_witness :
  let w := Sample.world_with {[ historyPath := Sample.one_record_text ]} in
  ([Sample.record_abc] <> [])
  /\ ((appendAll [Sample.record_abc];; load) (Some Sample.root) w).1.1
     = Ok [item_of Sample.record_abc (Some currentHistoryTree_ref)].
Proof.
  intros w.
  assert ([Sample.record_abc] <> []) as Hne by discriminate.
  split; [exact Hne |].
  by rewrite (append_before_load_hides_file [Sample.record_abc] Sample.root w
                eq_refl eq_refl Hne).
Defined.

Lemma appendHistory_fails_cleanly_witness :
  let w := Sample.world_with ∅ in
  (appendHistory VNull None w).1.1 = Throw TypeError
  /\ appendHistory VNull None w = (Throw TypeError, None, w).
Proof.
  intros w.
  assert ((appendHistory VNull None w).1.1 = Throw TypeError) as Hthrow by reflexivity.
  split; [exact Hthrow |].
  by destruct (appendHistory_fails_cleanly VNull None w TypeError Hthrow) as [Hrun _].
Defined.


Lemma getParent_depth_one_witness :
  let leaf := item_of Sample.record_abc (Some currentHistoryTree_ref) in
  let tree := set_children [leaf] Sample.root in
  let w := emit Ev_fire (Sample.world_with ∅) in
  reachable (Some tree, w)
  /\ getParent tree = None
  /\ getParent leaf = Some currentHistoryTree_ref.
Proof.
  intros leaf tree w.
  assert (reachable (Some tree, w)) as Hreach.
  { apply (reachable_step (Some Sample.root, Sample.world_with ∅)).
    - apply (reachable_step (None, Sample.world_with ∅)); [constructor |].
      exact (step_create "2020-05-01T10:00:00.000Z" None (Sample.world_with ∅)).
    - exact (step_append (History.to_value Sample.record_abc)
                         (Some Sample.root) (Sample.world_with ∅)). }
  split; [exact Hreach |].
  destruct (getParent_depth_one tree w Hreach) as [Hroot Hleaves].
  split; [exact Hroot |]. by apply Forall_cons in Hleaves as [Hleaf _].
Defined.

Lemma appended_records_not_persisted_witness :
  let w := Sample.world_with {[ historyPath := Sample.one_record_text ]} in
  _parent Sample.root = None
  /\ disk (appendAll [Sample.record_abc] (Some Sample.root) w).2 = disk w
  /\ (load (Some Sample.root) (appendAll [Sample.record_abc] (Some Sample.root) w).2).1.1
     = (load (Some Sample.root) w).1.1.
Proof.
  intros w. split; [done |].
  exact (appended_records_not_persisted [Sample.record_abc] Sample.root Sample.root w
           eq_refl).
Defined.
